(** * typosee: the Levenshtein core of [typosee.c]

    A shallow embedding of [min3], [levenshtein_matrix_create],
    [levenshtein_matrix_calculate] and [levenshtein_distance], and the
    properties of the table and of the edit script they produce; then of
    the string helpers [count_periods], [strrev], [strip] and
    [strip_subline] and of the loop of [main] over the labels of a name.

    Conventions of the embedding.
    - [unsigned int] and [int] are 32 bits wide.  A value of either type is
      an integer of [Z]; every place where the C code stores into an
      [unsigned int] reduces modulo [2^32] ([to_uint]) and every place
      where it passes an [unsigned int] to an [int] parameter reinterprets
      the bits ([to_int]).
    - A C string is the list of its characters before the terminating NUL;
      [strlen] is [length].  Reading index [length s] yields the NUL.
    - The loop counters [i] and [j] are natural numbers: the strings are
      shorter than [2^32 - 1], so the counters never wrap.
    - [mat] is a two-dimensional array of [edit] cells.  It is a function
      from a row and a column to the cell stored there; a pointer to
      [mat[i][j]] is the pair [(i, j)].
    - [malloc] is an oracle: [malloc_ok k] tells whether the [k]-th call of
      one run of [levenshtein_distance] succeeds.  The content of a fresh
      block of cells is arbitrary ([heap]); a fresh script buffer holds no
      edit in any of its slots. *)

From Stdlib Require Import ZArith List Ascii String Bool Lia Sorted.
From stdpp Require Import base list.

Local Open Scope Z_scope.

(** ** Integers *)

Definition to_uint (x : Z) : Z := x mod 2 ^ 32.

Definition to_int (x : Z) : Z :=
  let y := x mod 2 ^ 32 in if y <? 2 ^ 31 then y else y - 2 ^ 32.

(** ** Data *)

Inductive edit_type : Set :=
| INSERTION
| DELETION
| SUBSTITUTION
| NONE.

Definition edit_type_eqb (s t : edit_type) : bool :=
  match s, t with
  | INSERTION, INSERTION | DELETION, DELETION
  | SUBSTITUTION, SUBSTITUTION | NONE, NONE => true
  | _, _ => false
  end.

(** [struct edit].  [prev] is [None] for the C [NULL]. *)
Record edit : Set := mk_edit {
  score : Z;
  type : edit_type;
  arg1 : ascii;
  arg2 : ascii;
  pos : Z;
  prev : option (nat * nat)
}.

Definition matrix : Type := nat -> nat -> edit.

(** The assignment [mat[i][j] = e]. *)
Definition mat_set (mat : matrix) (i j : nat) (e : edit) : matrix :=
  fun i' j' => if (i' =? i)%nat && (j' =? j)%nat then e else mat i' j'.

(** [str[k]]. *)
Definition char_at (str : list ascii) (k : nat) : ascii := nth k str zero.

(** What [*script] holds: [NULL], or a buffer whose slots are either still
    as [malloc] left them ([None]) or hold a copied cell. *)
Inductive script_ref : Type :=
| NULL
| Script (buf : list (option edit)).

(** How a run ends: it returns, it writes outside a buffer, or the model's
    fuel is used up. *)
Inductive run (A : Type) : Type :=
| Done (a : A)
| Fault
| OutOfFuel.
Arguments Done {A} a.
Arguments Fault {A}.
Arguments OutOfFuel {A}.

(** ** [min3] *)

Definition min3 (a b c : Z) : Z :=
  if (a <? b) && (a <? c) then a
  else if (b <? a) && (b <? c) then b
  else c.

(** ** [levenshtein_matrix_calculate] *)

Definition substitution_cost_of (str1 str2 : list ascii) (i j : nat) : Z :=
  if Ascii.eqb (char_at str1 (i - 1)) (char_at str2 (j - 1)) then 0 else 1.

(** The three candidates of the cell [(i, j)], as the unsigned values the
    code stores in [del], [ins] and [subst]. *)
Definition del_of (mat : matrix) (i j : nat) : Z :=
  to_uint (score (mat (i - 1)%nat j) + 1).
Definition ins_of (mat : matrix) (i j : nat) : Z :=
  to_uint (score (mat i (j - 1)%nat) + 1).
Definition subst_of (mat : matrix) (str1 str2 : list ascii) (i j : nat) : Z :=
  to_uint (score (mat (i - 1)%nat (j - 1)%nat)
           + substitution_cost_of str1 str2 i j).

(** The body of the inner loop: the cell written to [mat[i][j]]. *)
Definition calculate_cell (mat : matrix) (str1 str2 : list ascii)
    (i j : nat) : edit :=
  let substitution_cost := substitution_cost_of str1 str2 i j in
  let del := del_of mat i j in
  let ins := ins_of mat i j in
  let subst := subst_of mat str1 str2 i j in
  let best := to_uint (min3 (to_int del) (to_int ins) (to_int subst)) in
  {| score := best;
     arg1 := char_at str1 (i - 1);
     arg2 := char_at str2 (j - 1);
     pos := Z.of_nat (i - 1);
     type :=
       if best =? del then DELETION
       else if best =? ins then INSERTION
       else if 0 <? substitution_cost then SUBSTITUTION
       else NONE;
     prev :=
       if best =? del then Some ((i - 1)%nat, j)
       else if best =? ins then Some (i, (j - 1)%nat)
       else Some ((i - 1)%nat, (j - 1)%nat) |}.

(** The inner loop, [for (i = 1; i <= len1; i++)], for one column. *)
Definition calculate_column (str1 : list ascii) (len1 : nat)
    (str2 : list ascii) (mat : matrix) (j : nat) : matrix :=
  fold_left (fun m i => mat_set m i j (calculate_cell m str1 str2 i j))
            (seq 1 len1) mat.

(** The filled matrix and the value returned. *)
Definition levenshtein_matrix_calculate (mat : matrix) (str1 : list ascii)
    (len1 : nat) (str2 : list ascii) (len2 : nat) : matrix * Z :=
  let mat' := fold_left (calculate_column str1 len1 str2) (seq 1 len2) mat in
  (mat', score (mat' len1 len2)).

(** ** [levenshtein_matrix_create] *)

(** The four fields a border cell is given; [type] and [pos] stay as they
    were in the fresh block. *)
Definition border_cell (old : edit) (k : nat) : edit :=
  {| score := Z.of_nat k; type := type old; arg1 := zero; arg2 := zero;
     pos := pos old; prev := None |}.

(** The two loops that follow the allocation: column [0], then row [0]. *)
Definition init_borders (heap : matrix) (len1 len2 : nat) : matrix :=
  let mat1 :=
    fold_left (fun m i => mat_set m i 0 (border_cell (m i 0%nat) i))
              (seq 0 (S len1)) heap in
  fold_left (fun m j => mat_set m 0 j (border_cell (m 0%nat j) j))
            (seq 0 (S len2)) mat1.

(** Call [0] of [malloc] is the array of rows, call [i + 1] is row [i]. *)
Definition levenshtein_matrix_create (malloc_ok : nat -> bool)
    (heap : matrix) (len1 len2 : nat) : option matrix :=
  if negb (malloc_ok 0%nat) then None
  else if negb (forallb (fun i => malloc_ok (S i)) (seq 0 (S len1))) then None
  else Some (init_borders heap len1 len2).

(** ** [levenshtein_distance] *)

(** The read-back loop.  [head] is the cell pointed to, [i] the unsigned
    index of the next slot of the script buffer.  [memcpy] to a slot beyond
    the buffer is a [Fault]. *)
Fixpoint read_back (fuel : nat) (mat : matrix) (head : nat * nat) (i : Z)
    (buf : list (option edit)) : run (list (option edit)) :=
  match fuel with
  | O => OutOfFuel
  | S fuel' =>
      let cell := mat (fst head) (snd head) in
      match prev cell with
      | None => Done buf
      | Some p =>
          if edit_type_eqb (type cell) NONE then read_back fuel' mat p i buf
          else if i <? Z.of_nat (length buf) then
            read_back fuel' mat p (to_uint (i - 1))
                      (<[Z.to_nat i := Some cell]> buf)
          else Fault
      end
  end.

(** [script] is the value of [*script] on entry; the result is the value
    returned and the value of [*script] on exit.  The script buffer is call
    [len1 + 2] of [malloc]. *)
Definition levenshtein_distance (malloc_ok : nat -> bool) (heap : matrix)
    (str1 str2 : list ascii) (script : script_ref) : run (Z * script_ref) :=
  let len1 := length str1 in
  let len2 := length str2 in
  if (len1 =? 0)%nat then Done (to_uint (Z.of_nat len2), script)
  else if (len2 =? 0)%nat then Done (to_uint (Z.of_nat len1), script)
  else
    match levenshtein_matrix_create malloc_ok heap len1 len2 with
    | None => Done (0, NULL)
    | Some mat =>
        let '(mat, distance) :=
          levenshtein_matrix_calculate mat str1 len1 str2 len2 in
        if malloc_ok (len1 + 2)%nat then
          match read_back (S (len1 + len2)) mat (len1, len2)
                          (to_uint (distance - 1))
                          (replicate (Z.to_nat distance) None) with
          | Done buf => Done (distance, Script buf)
          | Fault => Fault
          | OutOfFuel => OutOfFuel
          end
        else Done (0, NULL)
    end.

(** ** Notions used to state the properties *)

(** Every [malloc] of the matrix succeeded. *)
Definition rows_allocated (malloc_ok : nat -> bool) (len1 : nat) : Prop :=
  forall k, (k <= S len1)%nat -> malloc_ok k = true.

(** The table [levenshtein_distance] works on, when it gets one. *)
Definition table_of (malloc_ok : nat -> bool) (heap : matrix)
    (str1 str2 : list ascii) : option matrix :=
  match levenshtein_matrix_create malloc_ok heap (length str1) (length str2) with
  | Some mat =>
      Some (fst (levenshtein_matrix_calculate mat str1 (length str1)
                   str2 (length str2)))
  | None => None
  end.

(** [filled str1 str2 M]: [M] has the borders of [levenshtein_matrix_create]
    and, inside, the cells of [levenshtein_matrix_calculate]. *)
Record filled (str1 str2 : list ascii) (M : matrix) : Prop := {
  filled_column0 : forall i, (i <= length str1)%nat ->
    score (M i 0%nat) = Z.of_nat i /\ prev (M i 0%nat) = None;
  filled_row0 : forall j, (j <= length str2)%nat ->
    score (M 0%nat j) = Z.of_nat j /\ prev (M 0%nat j) = None;
  filled_cell : forall i j,
    (1 <= i <= length str1)%nat -> (1 <= j <= length str2)%nat ->
    M i j = calculate_cell M str1 str2 i j
}.

(** The strings are short enough for every score to be an [int]. *)
Definition fits (str1 str2 : list ascii) : Prop :=
  Z.of_nat (length str1) + Z.of_nat (length str2) < 2 ^ 31.

(** A cell that the read-back loop copies into the script. *)
Definition is_edit (e : edit) : bool := negb (edit_type_eqb (type e) NONE).

(** The walk of the read-back loop on its own: the cells it visits from
    [head], in the order it visits them, and the cell with no predecessor
    at which it stops. *)
Fixpoint trace (fuel : nat) (mat : matrix) (head : nat * nat) :
    option (list edit * (nat * nat)) :=
  match fuel with
  | O => None
  | S fuel' =>
      let cell := mat (fst head) (snd head) in
      match prev cell with
      | None => Some ([], head)
      | Some p =>
          match trace fuel' mat p with
          | Some (cells, stop) => Some (cell :: cells, stop)
          | None => None
          end
      end
  end.

(** The edits of a script: what its filled slots hold, in slot order. *)
Definition script_edits (s : script_ref) : list edit :=
  match s with
  | NULL => []
  | Script buf => omap id buf
  end.

(** The cell [(i, i)] of a table whose diagonal holds substitutions
    only. *)
Definition substitution_cell (str1 str2 : list ascii) (i : nat) : edit :=
  {| score := Z.of_nat i; type := SUBSTITUTION;
     arg1 := char_at str1 (i - 1); arg2 := char_at str2 (i - 1);
     pos := Z.of_nat (i - 1); prev := Some ((i - 1)%nat, (i - 1)%nat) |}.

(** A string literal as a C string; an allocator that grants every request
    and one that refuses every request. *)
Definition str (s : string) : list ascii := list_ascii_of_string s.
Definition always : nat -> bool := fun _ => true.
Definition never : nat -> bool := fun _ => false.

(** Some content for the fresh rows of a matrix. *)
Definition junk : edit :=
  {| score := 12345; type := NONE; arg1 := "?"%char; arg2 := "?"%char;
     pos := 54321; prev := Some (7%nat, 7%nat) |}.
Definition junk_heap : matrix := fun _ _ => junk.

(** The table of Wagner and Fischer that the header of [typosee.c] refers
    to: the recurrence of [levenshtein_matrix_calculate] with a minimum of
    the three candidates in the place of [min3].  [wagner_fischer str1 str2
    i j] is its entry for the first [i] characters of [str1] and the first
    [j] characters of [str2]. *)
Fixpoint wagner_fischer (str1 str2 : list ascii) (i : nat) : nat -> Z :=
  match i with
  | O => fun j => Z.of_nat j
  | S i' =>
      fix row (j : nat) : Z :=
        match j with
        | O => Z.of_nat (S i')
        | S j' =>
            Z.min (wagner_fischer str1 str2 i' (S j') + 1)
              (Z.min (row j' + 1)
                 (wagner_fischer str1 str2 i' j'
                  + substitution_cost_of str1 str2 (S i') (S j')))
        end
  end.

(** ** The string helpers of the driver

    A [char] array is the list of its bytes; the first NUL in it, or its
    end, terminates the C string it holds.  The end of the list stands for
    a NUL that is never overwritten. *)

Definition bind {A B : Type} (r : run A) (f : A -> run B) : run B :=
  match r with
  | Done a => f a
  | Fault => Fault
  | OutOfFuel => OutOfFuel
  end.

Notation "'let*' x ':=' r 'in' k" := (bind r (fun x => k))
  (at level 10, x name, r at level 100, k at level 200).

Fixpoint strlen (buf : list ascii) : nat :=
  match buf with
  | [] => 0
  | c :: buf' => if Ascii.eqb c zero then 0 else S (strlen buf')
  end.

(** The C string an array holds. *)
Definition c_string (buf : list ascii) : list ascii :=
  firstn (strlen buf) buf.

(** [a ^ b] on two [char]s. *)
Definition xor_char (a b : ascii) : ascii :=
  match a, b with
  | Ascii a0 a1 a2 a3 a4 a5 a6 a7, Ascii b0 b1 b2 b3 b4 b5 b6 b7 =>
      Ascii (xorb a0 b0) (xorb a1 b1) (xorb a2 b2) (xorb a3 b3)
            (xorb a4 b4) (xorb a5 b5) (xorb a6 b6) (xorb a7 b7)
  end.

(** The body of the loop of [strrev]: the three assignments
    [*p1 ^= *p2; *p2 ^= *p1; *p1 ^= *p2]. *)
Definition xor_swap (buf : list ascii) (p1 p2 : nat) : list ascii :=
  let buf := <[p1 := xor_char (char_at buf p1) (char_at buf p2)]> buf in
  let buf := <[p2 := xor_char (char_at buf p2) (char_at buf p1)]> buf in
  <[p1 := xor_char (char_at buf p1) (char_at buf p2)]> buf.

(** The loop of [strrev]; [p1] and [p2] are offsets from [str]. *)
Fixpoint strrev_loop (fuel : nat) (buf : list ascii) (p1 p2 : nat) :
    run (list ascii) :=
  if (p1 <? p2)%nat then
    match fuel with
    | O => OutOfFuel
    | S fuel' => strrev_loop fuel' (xor_swap buf p1 p2) (S p1) (p2 - 1)
    end
  else Done buf.

(** [strrev] on an array ([str] is not [NULL]): the content of the array
    afterwards. *)
Definition strrev (buf : list ascii) : run (list ascii) :=
  if (strlen buf =? 0)%nat then Done buf
  else strrev_loop (strlen buf) buf 0 (strlen buf - 1).

(** [count_periods]. *)
Definition count_periods (buf : list ascii) : Z :=
  fold_left (fun p i => if Ascii.eqb (char_at buf i) "."%char then p + 1 else p)
            (seq 0 (strlen buf)) 0.

(** The [tolower] of the C library in the C locale, the one in force as
    the program never calls [setlocale]: the letters A to Z are mapped to
    a to z, every other byte to itself. *)
Definition tolower (c : ascii) : ascii :=
  let n := nat_of_ascii c in
  if (65 <=? n)%nat && (n <=? 90)%nat then ascii_of_nat (n + 32) else c.

(** Line feed or carriage return; [0x0a] and [0x0d] are the same two
    characters. *)
Definition is_line_end (c : ascii) : bool :=
  Ascii.eqb c "010"%char || Ascii.eqb c "013"%char.

Definition is_comma (c : ascii) : bool := Ascii.eqb c ","%char.

(** One test of [strip] on the last character, [str[strlen(str)-1]],
    which is overwritten with a NUL when the test holds.  On an empty
    string the byte before the array is read: a [Fault]. *)
Definition chop_if (test : ascii -> bool) (buf : list ascii) :
    run (list ascii) :=
  match strlen buf with
  | O => Fault
  | S k => if test (char_at buf k) then Done (<[k := zero]> buf) else Done buf
  end.

(** The last loop of [strip]: every byte before the first NUL is replaced
    by its [tolower]. *)
Fixpoint lower (buf : list ascii) : list ascii :=
  match buf with
  | [] => []
  | c :: buf' => if Ascii.eqb c zero then buf else tolower c :: lower buf'
  end.

(** [strip]: the content of the array afterwards. *)
Definition strip (buf : list ascii) : run (list ascii) :=
  let* buf := chop_if is_line_end buf in
  let* buf := chop_if is_line_end buf in
  let* buf := chop_if is_comma buf in
  Done (lower buf).

(** The loop of [strip_subline]: [i] runs from [strlen(buf)-1] down to 0
    and every comma met is overwritten with a NUL. *)
Definition commas_to_nul (buf : list ascii) : list ascii :=
  fold_left (fun b i => if is_comma (char_at b i) then <[i := zero]> b else b)
            (rev (seq 0 (strlen buf))) buf.

(** [strip_subline]: the C string [str] holds afterwards.  [buf] has room
    for 2047 characters and a NUL; [strcpy] of a longer string writes past
    its end. *)
Definition strip_subline (str : list ascii) : run (list ascii) :=
  if (2048 <=? strlen str)%nat then Fault
  else
    let* buf := strip (c_string str) in
    let* buf := strrev buf in
    let* buf := strrev (commas_to_nul buf) in
    Done (c_string buf).

(** What follows a C string in its array: nothing, or a NUL and more. *)
Definition terminated (rest : list ascii) : Prop :=
  rest = [] \/ exists rest', rest = zero :: rest'.

(** What the loop of [strip_subline] writes for a byte. *)
Definition comma_to_nul (c : ascii) : ascii := if is_comma c then zero else c.

(** What one test of [strip] and what [strip] as a whole do to the C string
    in the array: [None] when the byte before the array is read. *)
Definition chop_string (test : ascii -> bool) (s : list ascii) :
    option (list ascii) :=
  match rev s with
  | [] => None
  | c :: r => Some (if test c then rev r else s)
  end.

Definition strip_string (s : list ascii) : option (list ascii) :=
  match chop_string is_line_end s with
  | None => None
  | Some s1 =>
      match chop_string is_line_end s1 with
      | None => None
      | Some s2 =>
          match chop_string is_comma s2 with
          | None => None
          | Some s3 => Some (map tolower s3)
          end
      end
  end.

(** ** The labels [main] compares *)

(** The successive results of [strtok(lineBuf, ".")] and
    [strtok(NULL, ".")] up to the first [NULL], as the C library defines
    them: the maximal non-empty runs of characters other than the full stop
    in the C string the array holds.  [cur] is the run being read, its last
    character first. *)
Fixpoint strtok_tokens_from (cur buf : list ascii) : list (list ascii) :=
  match buf with
  | [] => match cur with [] => [] | _ => [rev cur] end
  | c :: buf' =>
      if Ascii.eqb c zero then match cur with [] => [] | _ => [rev cur] end
      else if Ascii.eqb c "."%char then
        match cur with
        | [] => strtok_tokens_from [] buf'
        | _ => rev cur :: strtok_tokens_from [] buf'
        end
      else strtok_tokens_from (c :: cur) buf'
  end.

Definition strtok_tokens (buf : list ascii) : list (list ascii) :=
  strtok_tokens_from [] buf.

(** The [while (token != NULL)] loop of [main]: [tokens] are the results
    [strtok] has still to give; the result lists the tokens the loop passes
    to [levenshtein_distance]. *)
Fixpoint more_tokens (num_p token_cnt : Z) (tokens : list (list ascii)) :
    list (list ascii) :=
  if token_cnt =? num_p then []
  else
    match tokens with
    | [] => []
    | token :: tokens' =>
        token :: more_tokens num_p (to_uint (token_cnt + 1)) tokens'
    end.

(** The tokens of one line, as [strip_subline] left it, that [main] passes
    to [levenshtein_distance], in order. *)
Definition compared_tokens (lineBuf : list ascii) : list (list ascii) :=
  let num_p := to_uint (count_periods lineBuf) in
  match strtok_tokens lineBuf with
  | [] => []
  | token :: tokens' =>
      let token_cnt := to_uint (0 + 1) in
      token :: (if token_cnt =? num_p then []
                else more_tokens num_p token_cnt tokens')
  end.

(** A domain name written from its labels. *)
Fixpoint join_labels (labels : list (list ascii)) : list ascii :=
  match labels with
  | [] => []
  | [label] => label
  | label :: labels' => label ++ "."%char :: join_labels labels'
  end.

(** A label: not empty, without full stop and without NUL. *)
Definition is_label (label : list ascii) : Prop :=
  label <> [] /\
  Forall (fun c => c <> zero /\ c <> "."%char) label.

(** The scores [levenshtein_matrix_calculate] arrives at for strings that
    [fits], written as a recursive function: the borders of
    [levenshtein_matrix_create] and [min3] of the three candidates. *)
Fixpoint score_table (str1 str2 : list ascii) (i : nat) : nat -> Z :=
  match i with
  | O => fun j => Z.of_nat j
  | S i' =>
      fix row (j : nat) : Z :=
        match j with
        | O => Z.of_nat (S i')
        | S j' =>
            min3 (score_table str1 str2 i' (S j') + 1) (row j' + 1)
                 (score_table str1 str2 i' j'
                  + substitution_cost_of str1 str2 (S i') (S j'))
        end
  end.

(** ** The matrix as a store *)

Lemma mat_set_same (mat : matrix) i j e : mat_set mat i j e i j = e.
Proof. unfold mat_set. now rewrite !Nat.eqb_refl. Qed.

Lemma mat_set_other (mat : matrix) i j e i' j' :
  (i', j') <> (i, j) -> mat_set mat i j e i' j' = mat i' j'.
Proof.
  intros Hne. unfold mat_set.
  destruct (Nat.eqb_spec i' i) as [->|]; [|reflexivity].
  destruct (Nat.eqb_spec j' j) as [->|]; [|reflexivity].
  now contradiction Hne.
Qed.

(** A loop that runs [k] over [start .. start + n - 1]. *)
Lemma fold_left_seq_S {A} (f : A -> nat -> A) start n x :
  fold_left f (seq start (S n)) x = f (fold_left f (seq start n) x) (start + n)%nat.
Proof. now rewrite seq_S, fold_left_app. Qed.

(** ** What [levenshtein_matrix_create] builds *)

Lemma create_column0 (heap : matrix) n i j :
  fold_left (fun m i => mat_set m i 0 (border_cell (m i 0%nat) i)) (seq 0 n) heap i j
  = if (j =? 0)%nat && (i <? n)%nat then border_cell (heap i 0%nat) i else heap i j.
Proof.
  induction n as [|n IH] in i, j |- *.
  - cbn. now rewrite andb_false_r.
  - rewrite fold_left_seq_S. cbn [Nat.add].
    destruct (decide ((i, j) = (n, 0%nat))) as [[= -> ->]|Hne].
    + rewrite mat_set_same, IH, Nat.ltb_irrefl, andb_false_r.
      now rewrite (proj2 (Nat.ltb_lt n (S n))) by lia.
    + rewrite mat_set_other, IH by assumption.
      destruct (Nat.eqb_spec j 0) as [->|]; [|reflexivity]. cbn [andb].
      destruct (Nat.ltb_spec i n), (Nat.ltb_spec i (S n)); try reflexivity; try lia.
      assert (i = n) by lia. congruence.
Qed.

Lemma create_row0 (mat : matrix) n i j :
  fold_left (fun m j => mat_set m 0 j (border_cell (m 0%nat j) j)) (seq 0 n) mat i j
  = if (i =? 0)%nat && (j <? n)%nat then border_cell (mat 0%nat j) j else mat i j.
Proof.
  induction n as [|n IH] in i, j |- *.
  - cbn. now rewrite andb_false_r.
  - rewrite fold_left_seq_S. cbn [Nat.add].
    destruct (decide ((i, j) = (0%nat, n))) as [[= -> ->]|Hne].
    + rewrite mat_set_same, IH, Nat.ltb_irrefl, andb_false_r.
      now rewrite (proj2 (Nat.ltb_lt n (S n))) by lia.
    + rewrite mat_set_other, IH by assumption.
      destruct (Nat.eqb_spec i 0) as [->|]; [|reflexivity]. cbn [andb].
      destruct (Nat.ltb_spec j n), (Nat.ltb_spec j (S n)); try reflexivity; try lia.
      assert (j = n) by lia. congruence.
Qed.

Lemma create_Some malloc_ok heap len1 len2 :
  rows_allocated malloc_ok len1 ->
  exists mat, levenshtein_matrix_create malloc_ok heap len1 len2 = Some mat.
Proof.
  intros Hok. unfold levenshtein_matrix_create.
  rewrite (Hok 0%nat) by lia. cbn [negb].
  replace (forallb _ _) with true; [cbn; eauto|].
  symmetry. apply forallb_forall. intros i Hi%in_seq. apply Hok. lia.
Qed.

Lemma create_None malloc_ok heap len1 len2 k :
  (k <= S len1)%nat -> malloc_ok k = false ->
  levenshtein_matrix_create malloc_ok heap len1 len2 = None.
Proof.
  intros Hk Hfail. unfold levenshtein_matrix_create.
  destruct (malloc_ok 0%nat) eqn:H0; [cbn [negb]|reflexivity].
  destruct (forallb _ _) eqn:Hall; [|reflexivity].
  rewrite forallb_forall in Hall.
  destruct k as [|k]; [congruence|].
  rewrite Hall in Hfail; [discriminate|]. apply in_seq. lia.
Qed.

Lemma create_cells malloc_ok heap len1 len2 mat i j :
  levenshtein_matrix_create malloc_ok heap len1 len2 = Some mat ->
  mat i j =
    if (i =? 0)%nat && (j <=? len2)%nat then border_cell (heap 0%nat j) j
    else if (j =? 0)%nat && (i <=? len1)%nat then border_cell (heap i 0%nat) i
    else heap i j.
Proof.
  unfold levenshtein_matrix_create.
  destruct (negb (malloc_ok 0%nat)); [discriminate|].
  destruct (negb (forallb _ _)); [discriminate|].
  intros [= <-]. unfold init_borders. rewrite create_row0, !create_column0.
  replace (j <? S len2)%nat with (j <=? len2)%nat
    by (destruct (Nat.leb_spec j len2), (Nat.ltb_spec j (S len2)); lia || reflexivity).
  replace (i <? S len1)%nat with (i <=? len1)%nat
    by (destruct (Nat.leb_spec i len1), (Nat.ltb_spec i (S len1)); lia || reflexivity).
  destruct (Nat.eqb_spec i 0) as [->|]; cbn [andb]; [|reflexivity].
  destruct (Nat.leb_spec j len2); [|reflexivity].
  destruct (Nat.eqb_spec j 0) as [->|]; cbn [andb]; reflexivity.
Qed.

(** ** What [levenshtein_matrix_calculate] builds *)

(** A cell is computed from three cells of the matrix only. *)
Lemma calculate_cell_ext (m1 m2 : matrix) str1 str2 i j :
  m1 (i - 1)%nat j = m2 (i - 1)%nat j ->
  m1 i (j - 1)%nat = m2 i (j - 1)%nat ->
  m1 (i - 1)%nat (j - 1)%nat = m2 (i - 1)%nat (j - 1)%nat ->
  calculate_cell m1 str1 str2 i j = calculate_cell m2 str1 str2 i j.
Proof.
  intros Hd Hi Hs. unfold calculate_cell, del_of, ins_of, subst_of.
  now rewrite Hd, Hi, Hs.
Qed.

(** The inner loop fills the rows [1 .. len1] of column [j] and nothing
    else; each cell it fills is the one computed from the final matrix. *)
Lemma calculate_column_spec str1 len1 str2 (mat : matrix) j :
  (1 <= j)%nat ->
  (forall i' j', ~ (j' = j /\ (1 <= i' <= len1)%nat) ->
     calculate_column str1 len1 str2 mat j i' j' = mat i' j') /\
  (forall i, (1 <= i <= len1)%nat ->
     calculate_column str1 len1 str2 mat j i j
     = calculate_cell (calculate_column str1 len1 str2 mat j) str1 str2 i j).
Proof.
  intros Hj. unfold calculate_column.
  induction len1 as [|n [IHframe IHcell]].
  - split; [reflexivity|lia].
  - rewrite fold_left_seq_S. cbn [Nat.add].
    set (Mn := fold_left _ (seq 1 n) mat) in *.
    assert (Hstep : forall i' j', (i', j') <> (S n, j) ->
              mat_set Mn (S n) j (calculate_cell Mn str1 str2 (S n) j) i' j'
              = Mn i' j')
      by (intros; now apply mat_set_other).
    split.
    + intros i' j' Hout. rewrite Hstep by (intros [= -> ->]; lia).
      apply IHframe. lia.
    + intros i Hi. destruct (decide (i = S n)) as [->|Hne].
      * rewrite mat_set_same.
        apply calculate_cell_ext; symmetry; apply Hstep; intros Heq; inversion Heq; lia.
      * rewrite Hstep by (intros Heq; inversion Heq; lia).
        rewrite IHcell by lia.
        apply calculate_cell_ext; symmetry; apply Hstep; intros Heq; inversion Heq; lia.
Qed.

(** The outer loop fills the cells [1 .. len1] x [1 .. len2] and nothing
    else; each cell it fills is the one computed from the final matrix. *)
Lemma calculate_spec (mat : matrix) str1 len1 str2 len2 :
  let M := fst (levenshtein_matrix_calculate mat str1 len1 str2 len2) in
  (forall i j, ~ ((1 <= i <= len1)%nat /\ (1 <= j <= len2)%nat) ->
     M i j = mat i j) /\
  (forall i j, (1 <= i <= len1)%nat -> (1 <= j <= len2)%nat ->
     M i j = calculate_cell M str1 str2 i j).
Proof.
  unfold levenshtein_matrix_calculate. cbn [fst].
  induction len2 as [|n [IHframe IHcell]].
  - split; [reflexivity|lia].
  - rewrite fold_left_seq_S. cbn [Nat.add].
    set (Mn := fold_left _ (seq 1 n) mat) in *.
    destruct (calculate_column_spec str1 len1 str2 Mn (S n)) as [Hframe Hcell];
      [lia|].
    split.
    + intros i j Hout. rewrite Hframe by lia. apply IHframe. lia.
    + intros i j Hi Hj. destruct (decide (j = S n)) as [->|Hne].
      * now apply Hcell.
      * rewrite Hframe by lia. rewrite IHcell by lia.
        apply calculate_cell_ext; symmetry; apply Hframe; lia.
Qed.

Lemma calculate_returns (mat : matrix) str1 len1 str2 len2 :
  snd (levenshtein_matrix_calculate mat str1 len1 str2 len2)
  = score (fst (levenshtein_matrix_calculate mat str1 len1 str2 len2) len1 len2).
Proof. reflexivity. Qed.

(** ** The filled table *)

Lemma create_calculate_filled malloc_ok heap str1 str2 mat :
  levenshtein_matrix_create malloc_ok heap (length str1) (length str2)
  = Some mat ->
  filled str1 str2
    (fst (levenshtein_matrix_calculate mat str1 (length str1)
            str2 (length str2))).
Proof.
  intros Hcreate.
  destruct (calculate_spec mat str1 (length str1) str2 (length str2))
    as [Hframe Hcell].
  split.
  - intros i Hi. rewrite Hframe by lia.
    rewrite (create_cells _ _ _ _ _ i 0%nat Hcreate).
    destruct (Nat.eqb_spec i 0) as [->|]; cbn [andb].
    + now destruct (0 <=? length str2)%nat.
    + rewrite (proj2 (Nat.leb_le i (length str1))) by lia. now cbn.
  - intros j Hj. rewrite Hframe by lia.
    rewrite (create_cells _ _ _ _ _ 0%nat j Hcreate).
    rewrite (proj2 (Nat.leb_le j (length str2))) by lia. now cbn.
  - intros i j Hi Hj. now apply Hcell.
Qed.

(** ** Arithmetic of the cells *)

Lemma to_uint_small x : 0 <= x < 2 ^ 32 -> to_uint x = x.
Proof. intros. unfold to_uint. now apply Z.mod_small. Qed.

Lemma to_int_small x : 0 <= x < 2 ^ 31 -> to_int x = x.
Proof.
  intros Hx. unfold to_int. rewrite Z.mod_small by lia.
  destruct (Z.ltb_spec x (2 ^ 31)); lia.
Qed.

Lemma min3_cases a b c :
  (min3 a b c = a /\ a < b /\ a < c) \/
  (min3 a b c = b /\ b < a /\ b < c) \/
  (min3 a b c = c /\ ~ (a < b /\ a < c) /\ ~ (b < a /\ b < c)).
Proof.
  unfold min3.
  destruct (Z.ltb_spec a b), (Z.ltb_spec a c), (Z.ltb_spec b a),
    (Z.ltb_spec b c); cbn [andb]; lia.
Qed.

(** [min3] does not tell its first two arguments apart. *)
Lemma min3_swap a b c : min3 a b c = min3 b a c.
Proof.
  unfold min3.
  destruct (Z.ltb_spec a b), (Z.ltb_spec a c), (Z.ltb_spec b a),
    (Z.ltb_spec b c); cbn [andb]; lia.
Qed.

Lemma substitution_cost_of_range str1 str2 i j :
  0 <= substitution_cost_of str1 str2 i j <= 1.
Proof. unfold substitution_cost_of. destruct (Ascii.eqb _ _); lia. Qed.

Lemma substitution_cost_of_sym str1 str2 i j :
  substitution_cost_of str1 str2 i j = substitution_cost_of str2 str1 j i.
Proof. unfold substitution_cost_of. now rewrite Ascii.eqb_sym. Qed.

Section Filled.

Variables (str1 str2 : list ascii) (M : matrix).
Hypothesis HM : filled str1 str2 M.
Hypothesis Hfits : fits str1 str2.

Lemma two_31 : 2 ^ 31 = 2147483648.
Proof. reflexivity. Qed.

Lemma two_32 : 2 ^ 32 = 4294967296.
Proof. reflexivity. Qed.

(** No score exceeds the number of characters of the two prefixes. *)
Lemma filled_score_bound i j :
  (i <= length str1)%nat -> (j <= length str2)%nat ->
  0 <= score (M i j) <= Z.of_nat i + Z.of_nat j.
Proof.
  pose proof Hfits as Hf. unfold fits in Hf. rewrite two_31 in Hf.
  induction i as [|i IHi] in j |- *.
  - intros _ Hj. destruct (filled_row0 _ _ _ HM j Hj) as [-> _]. lia.
  - intros Hi. induction j as [|j IHj].
    + intros _. destruct (filled_column0 _ _ _ HM (S i) Hi) as [-> _]. lia.
    + intros Hj.
      rewrite (filled_cell _ _ _ HM (S i) (S j)) by lia.
      cbn [calculate_cell score].
      unfold del_of, ins_of, subst_of.
      replace (S i - 1)%nat with i by lia.
      replace (S j - 1)%nat with j by lia.
      pose proof (IHi (S j) ltac:(lia) ltac:(lia)) as Hd.
      pose proof (IHj ltac:(lia)) as Hn.
      pose proof (IHi j ltac:(lia) ltac:(lia)) as Hs.
      pose proof (substitution_cost_of_range str1 str2 (S i) (S j)) as Hc.
      rewrite !(to_uint_small (_ + _)) by (rewrite two_32; lia).
      rewrite !to_int_small by (rewrite two_31; lia).
      rewrite to_uint_small
        by (rewrite two_32;
            destruct (min3_cases (score (M i (S j)) + 1)
                        (score (M (S i) j) + 1)
                        (score (M i j) + substitution_cost_of str1 str2 (S i) (S j)))
              as [[-> _]|[[-> _]|[-> _]]]; lia).
      destruct (min3_cases (score (M i (S j)) + 1)
                  (score (M (S i) j) + 1)
                  (score (M i j) + substitution_cost_of str1 str2 (S i) (S j)))
        as [[-> _]|[[-> _]|[-> _]]]; lia.
Qed.

(** Inside the table the three candidates and the score are computed
    without any wrap-around. *)
Lemma filled_del i j :
  (1 <= i <= length str1)%nat -> (1 <= j <= length str2)%nat ->
  del_of M i j = score (M (i - 1)%nat j) + 1.
Proof.
  intros Hi Hj. unfold del_of.
  pose proof Hfits as Hf. unfold fits in Hf. rewrite two_31 in Hf.
  pose proof (filled_score_bound (i - 1) j ltac:(lia) ltac:(lia)).
  apply to_uint_small. rewrite two_32. lia.
Qed.

Lemma filled_ins i j :
  (1 <= i <= length str1)%nat -> (1 <= j <= length str2)%nat ->
  ins_of M i j = score (M i (j - 1)%nat) + 1.
Proof.
  intros Hi Hj. unfold ins_of.
  pose proof Hfits as Hf. unfold fits in Hf. rewrite two_31 in Hf.
  pose proof (filled_score_bound i (j - 1) ltac:(lia) ltac:(lia)).
  apply to_uint_small. rewrite two_32. lia.
Qed.

Lemma filled_subst i j :
  (1 <= i <= length str1)%nat -> (1 <= j <= length str2)%nat ->
  subst_of M str1 str2 i j
  = score (M (i - 1)%nat (j - 1)%nat) + substitution_cost_of str1 str2 i j.
Proof.
  intros Hi Hj. unfold subst_of.
  pose proof Hfits as Hf. unfold fits in Hf. rewrite two_31 in Hf.
  pose proof (filled_score_bound (i - 1) (j - 1) ltac:(lia) ltac:(lia)).
  pose proof (substitution_cost_of_range str1 str2 i j).
  apply to_uint_small. rewrite two_32. lia.
Qed.

Lemma filled_score i j :
  (1 <= i <= length str1)%nat -> (1 <= j <= length str2)%nat ->
  score (M i j)
  = min3 (del_of M i j) (ins_of M i j) (subst_of M str1 str2 i j).
Proof.
  intros Hi Hj.
  pose proof Hfits as Hf. unfold fits in Hf. rewrite two_31 in Hf.
  pose proof (filled_score_bound i j ltac:(lia) ltac:(lia)) as Hb.
  rewrite (filled_cell _ _ _ HM i j Hi Hj) in Hb |- *.
  cbn [calculate_cell score] in Hb |- *.
  pose proof (filled_score_bound (i - 1) j ltac:(lia) ltac:(lia)).
  pose proof (filled_score_bound i (j - 1) ltac:(lia) ltac:(lia)).
  pose proof (filled_score_bound (i - 1) (j - 1) ltac:(lia) ltac:(lia)).
  pose proof (substitution_cost_of_range str1 str2 i j).
  rewrite filled_del, filled_ins, filled_subst in Hb |- * by assumption.
  rewrite !to_int_small in Hb |- * by (rewrite two_31; lia).
  apply to_uint_small. rewrite two_32.
  match goal with |- context [min3 ?a ?b ?c] =>
    destruct (min3_cases a b c) as [[-> _]|[[-> _]|[-> _]]]; lia end.
Qed.

(** The edit kind and the predecessor recorded in a cell, in terms of its
    score. *)
Lemma filled_type i j :
  (1 <= i <= length str1)%nat -> (1 <= j <= length str2)%nat ->
  type (M i j) =
    if score (M i j) =? del_of M i j then DELETION
    else if score (M i j) =? ins_of M i j then INSERTION
    else if 0 <? substitution_cost_of str1 str2 i j then SUBSTITUTION
    else NONE.
Proof.
  intros Hi Hj. rewrite (filled_cell _ _ _ HM i j Hi Hj).
  reflexivity.
Qed.

Lemma filled_prev i j :
  (1 <= i <= length str1)%nat -> (1 <= j <= length str2)%nat ->
  prev (M i j) =
    if score (M i j) =? del_of M i j then Some ((i - 1)%nat, j)
    else if score (M i j) =? ins_of M i j then Some (i, (j - 1)%nat)
    else Some ((i - 1)%nat, (j - 1)%nat).
Proof.
  intros Hi Hj. rewrite (filled_cell _ _ _ HM i j Hi Hj).
  reflexivity.
Qed.

Lemma filled_pos i j :
  (1 <= i <= length str1)%nat -> (1 <= j <= length str2)%nat ->
  pos (M i j) = Z.of_nat (i - 1).
Proof.
  intros Hi Hj. now rewrite (filled_cell _ _ _ HM i j Hi Hj).
Qed.

End Filled.

(** ** The backward walk *)

Lemma omap_id_unfilled {A} n (l : list (option A)) :
  omap id (replicate n None ++ l) = omap id l.
Proof. induction n as [|n IH]; [reflexivity|exact IH]. Qed.

Lemma omap_id_filled {A} (l : list A) : omap id (map Some l) = l.
Proof. induction l as [|x l IH]; [reflexivity|]. cbn. now rewrite IH. Qed.

(** The read-back loop fills the buffer from slot [n - 1] downwards with
    the edits of the walk. *)
Lemma read_back_trace fuel mat head cells stop n suf :
  trace fuel mat head = Some (cells, stop) ->
  (length (List.filter is_edit cells) <= n)%nat ->
  Z.of_nat n <= 2 ^ 32 ->
  read_back fuel mat head (to_uint (Z.of_nat n - 1)) (replicate n None ++ suf)
  = Done (replicate (n - length (List.filter is_edit cells)) None
          ++ map Some (rev (List.filter is_edit cells)) ++ suf).
Proof.
  rewrite two_32.
  induction fuel as [|fuel IH] in head, cells, stop, n, suf |- *;
    [discriminate|].
  cbn [trace read_back].
  destruct (prev (mat (fst head) (snd head))) as [p|] eqn:Hprev.
  - destruct (trace fuel mat p) as [[cells' stop']|] eqn:Htr; [|discriminate].
    intros [= <- <-]. cbn [List.filter].
    set (cell := mat (fst head) (snd head)).
    destruct (edit_type_eqb (type cell) NONE) eqn:Hty.
    + assert (is_edit cell = false) as ->
        by (unfold is_edit; now rewrite Hty).
      intros Hlen Hn. now apply IH with (stop := stop').
    + assert (is_edit cell = true) as ->
        by (unfold is_edit; now rewrite Hty).
      cbn [length rev]. intros Hlen Hn.
      destruct n as [|n]; [lia|].
      rewrite to_uint_small by (rewrite two_32; lia).
      rewrite length_app, length_replicate.
      destruct (Z.ltb_spec (Z.of_nat (S n) - 1)
                  (Z.of_nat (S n + length suf))) as [_|]; [|lia].
      replace (Z.to_nat (Z.of_nat (S n) - 1)) with (length (replicate n (@None edit)) + 0)%nat
        by (rewrite length_replicate; lia).
      rewrite replicate_S_end, <- app_assoc, insert_app_r.
      cbn [app]. unfold insert at 1. cbn [list_insert].
      replace (Z.of_nat (S n) - 1 - 1) with (Z.of_nat n - 1) by lia.
      rewrite (IH p cells' stop' n _ Htr) by lia.
      replace (S n - S (length (List.filter is_edit cells')))%nat
        with (n - length (List.filter is_edit cells'))%nat by lia.
      now rewrite map_app, <- !app_assoc.
  - intros [= <- <-] _ _. cbn. now rewrite Nat.sub_0_r.
Qed.

Section Walk.

Variables (str1 str2 : list ascii) (M : matrix).
Hypothesis HM : filled str1 str2 M.
Hypothesis Hfits : fits str1 str2.

(** One step of the walk from a cell inside the table: the predecessor is
    one of the three neighbours, and the score grows by one exactly when
    the cell is an edit. *)
Lemma filled_step i j :
  (1 <= i <= length str1)%nat -> (1 <= j <= length str2)%nat ->
  exists i' j',
    prev (M i j) = Some (i', j') /\
    (i' <= i)%nat /\ (j' <= j)%nat /\ (i' + j' < i + j)%nat /\
    score (M i j) = score (M i' j') + (if is_edit (M i j) then 1 else 0).
Proof.
  intros Hi Hj.
  pose proof (filled_prev _ _ _ HM i j Hi Hj) as Hprev.
  pose proof (filled_type _ _ _ HM i j Hi Hj) as Htype.
  pose proof (filled_score _ _ _ HM Hfits i j Hi Hj) as Hscore.
  unfold is_edit.
  destruct (Z.eqb_spec (score (M i j)) (del_of M i j)) as [Hd|Hd].
  { exists (i - 1)%nat, j. rewrite Htype. cbn.
    rewrite (filled_del _ _ _ HM Hfits) in Hd by assumption.
    repeat split; [assumption|lia..]. }
  destruct (Z.eqb_spec (score (M i j)) (ins_of M i j)) as [Hn|Hn].
  { exists i, (j - 1)%nat. rewrite Htype. cbn.
    rewrite (filled_ins _ _ _ HM Hfits) in Hn by assumption.
    repeat split; [assumption|lia..]. }
  exists (i - 1)%nat, (j - 1)%nat. rewrite Htype.
  assert (Hs : score (M i j) = subst_of M str1 str2 i j).
  { rewrite Hscore in Hd, Hn |- *.
    destruct (min3_cases (del_of M i j) (ins_of M i j)
                (subst_of M str1 str2 i j))
      as [[H _]|[[H _]|[H _]]]; congruence. }
  rewrite (filled_subst _ _ _ HM Hfits) in Hs by assumption.
  pose proof (substitution_cost_of_range str1 str2 i j) as Hc.
  repeat split; [assumption|lia..|].
  destruct (Z.ltb_spec 0 (substitution_cost_of str1 str2 i j)); cbn; lia.
Qed.

(** The walk from any cell of the table stops at a border cell; the score
    at the start is the number of edits met plus the score of that border
    cell; the positions of the cells met never grow. *)
Lemma filled_trace fuel i j :
  (i <= length str1)%nat -> (j <= length str2)%nat ->
  (i + j < fuel)%nat ->
  exists cells stop,
    trace fuel M (i, j) = Some (cells, stop) /\
    (fst stop = 0 \/ snd stop = 0)%nat /\
    (fst stop <= i)%nat /\ (snd stop <= j)%nat /\
    score (M i j)
    = Z.of_nat (length (List.filter is_edit cells))
      + score (M (fst stop) (snd stop)) /\
    Forall (fun c => 0 <= pos c < Z.of_nat i) cells /\
    StronglySorted (fun x y => y <= x) (map pos cells).
Proof.
  induction fuel as [|fuel IH] in i, j |- *; [lia|].
  intros Hi Hj Hfuel. cbn [trace fst snd].
  destruct (decide (i = 0%nat)) as [->|Hi0].
  { destruct (filled_row0 _ _ _ HM j Hj) as [_ ->].
    exists [], (0%nat, j). cbn. repeat split; auto; try lia; constructor. }
  destruct (decide (j = 0%nat)) as [->|Hj0].
  { destruct (filled_column0 _ _ _ HM i Hi) as [_ ->].
    exists [], (i, 0%nat). cbn. repeat split; auto; try lia; constructor. }
  destruct (filled_step i j) as (i' & j' & -> & Hi' & Hj' & Hlt & Hscore);
    [lia..|].
  destruct (IH i' j') as (cells & stop & -> & Hborder & Hsi & Hsj & Hsc
                            & Hpos & Hsorted); [lia..|].
  exists (M i j :: cells), stop.
  assert (Hp : pos (M i j) = Z.of_nat (i - 1))
    by (apply (filled_pos _ _ _ HM); lia).
  repeat split; try assumption; try lia.
  - rewrite Hscore, Hsc. cbn [List.filter].
    destruct (is_edit (M i j)); cbn [length]; lia.
  - constructor; [lia|].
    eapply Forall_impl; [exact Hpos|]. cbn. lia.
  - cbn [map]. constructor; [assumption|].
    apply List.Forall_forall. intros x (c & <- & Hc)%in_map_iff.
    rewrite List.Forall_forall in Hpos. specialize (Hpos c Hc). lia.
Qed.

(** The recorded kind and predecessor follow the order deletion,
    insertion, substitution among the candidates that reach the minimum,
    unless deletion and insertion are equal and smaller than substitution:
    the cell then takes the substitution candidate. *)
Lemma filled_tie_break i j :
  (1 <= i <= length str1)%nat -> (1 <= j <= length str2)%nat ->
  let del := del_of M i j in
  let ins := ins_of M i j in
  let subst := subst_of M str1 str2 i j in
  let least := Z.min del (Z.min ins subst) in
  let kind := if 0 <? substitution_cost_of str1 str2 i j
              then SUBSTITUTION else NONE in
  (~ (del = ins /\ del < subst) ->
   score (M i j) = least /\
   (del = least ->
    type (M i j) = DELETION /\ prev (M i j) = Some ((i - 1)%nat, j)) /\
   (del <> least -> ins = least ->
    type (M i j) = INSERTION /\ prev (M i j) = Some (i, (j - 1)%nat)) /\
   (del <> least -> ins <> least ->
    type (M i j) = kind /\
    prev (M i j) = Some ((i - 1)%nat, (j - 1)%nat))) /\
  (del = ins /\ del < subst ->
   score (M i j) = subst /\
   type (M i j) = kind /\
   prev (M i j) = Some ((i - 1)%nat, (j - 1)%nat)).
Proof.
  intros Hi Hj del ins subst least kind.
  pose proof (filled_prev _ _ _ HM i j Hi Hj) as Hprev.
  pose proof (filled_type _ _ _ HM i j Hi Hj) as Htype.
  pose proof (filled_score _ _ _ HM Hfits i j Hi Hj) as Hscore.
  fold del ins subst kind in Hprev, Htype, Hscore.
  rewrite Htype, Hprev. clear Htype Hprev.
  destruct (min3_cases del ins subst) as [[Hm ?]|[[Hm ?]|[Hm ?]]];
    rewrite Hm in Hscore; rewrite Hscore; subst least;
    destruct (Z.eqb_spec del del), (Z.eqb_spec ins del),
      (Z.eqb_spec ins ins), (Z.eqb_spec subst del), (Z.eqb_spec subst ins);
    repeat split; intros; try reflexivity; try lia.
Qed.

End Walk.

(** Reading a descending list of edits backwards gives ascending
    positions; dropping the cells that are no edits keeps that order. *)
Lemma StronglySorted_snoc {A} (R : A -> A -> Prop) l x :
  StronglySorted R l -> Forall (fun y => R y x) l ->
  StronglySorted R (l ++ [x]).
Proof.
  induction 1 as [|y l Hl IH Hy]; intros Hall; cbn.
  - repeat constructor.
  - inversion Hall; subst. constructor; [now apply IH|].
    apply Forall_app. split; [assumption|now constructor].
Qed.

Lemma edits_ascending cells :
  StronglySorted (fun x y => y <= x) (map pos cells) ->
  StronglySorted Z.le (map pos (rev (List.filter is_edit cells))).
Proof.
  induction cells as [|c cells IH]; cbn [map List.filter rev].
  - constructor.
  - intros Hs. inversion Hs as [|? ? Hs' Hall]; subst.
    destruct (is_edit c); [|now apply IH].
    cbn [rev]. rewrite map_app. apply StronglySorted_snoc; [now apply IH|].
    apply List.Forall_forall. intros x (e & <- & He)%in_map_iff.
    rewrite <- in_rev in He. apply filter_In in He as [He _].
    rewrite List.Forall_forall in Hall. apply Hall. now apply in_map.
Qed.

(** ** [levenshtein_distance] on two non-empty strings *)

Lemma table_of_filled malloc_ok heap str1 str2 M :
  table_of malloc_ok heap str1 str2 = Some M -> filled str1 str2 M.
Proof.
  unfold table_of.
  destruct (levenshtein_matrix_create _ _ _ _) as [mat|] eqn:Hcreate;
    [|discriminate].
  intros [= <-]. now apply create_calculate_filled with malloc_ok heap.
Qed.

Lemma table_of_Some malloc_ok heap str1 str2 :
  rows_allocated malloc_ok (length str1) ->
  exists M, table_of malloc_ok heap str1 str2 = Some M.
Proof.
  intros Hok. unfold table_of.
  destruct (create_Some malloc_ok heap (length str1) (length str2) Hok)
    as [mat ->].
  eauto.
Qed.

(** With all allocations granted, the call returns the score of the last
    cell and a buffer of that many slots: the first slots, as many as the
    score of the border cell at which the walk stops, are left unfilled,
    the others hold the edits of the walk in reverse. *)
Lemma levenshtein_distance_nonempty malloc_ok heap str1 str2 script M :
  str1 <> [] -> str2 <> [] -> fits str1 str2 ->
  table_of malloc_ok heap str1 str2 = Some M ->
  malloc_ok (length str1 + 2)%nat = true ->
  exists cells stop,
    trace (S (length str1 + length str2)) M (length str1, length str2)
    = Some (cells, stop) /\
    levenshtein_distance malloc_ok heap str1 str2 script
    = Done (score (M (length str1) (length str2)),
            Script (replicate (Z.to_nat (score (M (fst stop) (snd stop)))) None
                    ++ map Some (rev (List.filter is_edit cells)))).
Proof.
  intros H1 H2 Hfits HM Hscript.
  pose proof (table_of_filled _ _ _ _ _ HM) as Hfilled.
  destruct (filled_trace _ _ _ Hfilled Hfits
              (S (length str1 + length str2)) (length str1) (length str2))
    as (cells & stop & Htrace & _ & Hsi & Hsj & Hscore & _); [lia..|].
  exists cells, stop. split; [assumption|].
  pose proof (filled_score_bound _ _ _ Hfilled Hfits (fst stop) (snd stop)
                ltac:(lia) ltac:(lia)) as Hstop.
  pose proof (filled_score_bound _ _ _ Hfilled Hfits (length str1)
                (length str2) ltac:(lia) ltac:(lia)) as Hlast.
  unfold fits in Hfits. rewrite two_31 in Hfits.
  assert (Hl1 : (length str1 =? 0)%nat = false)
    by (destruct str1; [congruence|reflexivity]).
  assert (Hl2 : (length str2 =? 0)%nat = false)
    by (destruct str2; [congruence|reflexivity]).
  unfold levenshtein_distance. rewrite Hl1, Hl2.
  unfold table_of in HM.
  destruct (levenshtein_matrix_create _ _ _ _) as [mat|]; [|discriminate].
  assert (HM' : fst (levenshtein_matrix_calculate mat str1 (length str1)
                       str2 (length str2)) = M) by congruence.
  clear HM.
  pose proof (calculate_returns mat str1 (length str1) str2 (length str2))
    as Hd.
  destruct (levenshtein_matrix_calculate _ _ _ _ _) as [M' d].
  cbn [fst snd] in Hd, HM'. subst M' d. rewrite Hscript.
  set (d := score (M (length str1) (length str2))) in *.
  set (E := List.filter is_edit cells) in *.
  replace d with (Z.of_nat (Z.to_nat d)) at 1 by lia.
  rewrite <- (app_nil_r (replicate (Z.to_nat d) None)).
  rewrite (read_back_trace _ _ _ cells stop _ _ Htrace)
    by (try rewrite two_32; fold E; lia).
  fold E. rewrite app_nil_r.
  replace (Z.to_nat d - length E)%nat
    with (Z.to_nat (score (M (fst stop) (snd stop)))) by lia.
  reflexivity.
Qed.

(** Whatever the allocator answers, the call returns: the read-back loop
    ends within the fuel it is given and writes inside the buffer. *)
Lemma levenshtein_distance_returns malloc_ok heap str1 str2 script :
  fits str1 str2 ->
  exists distance s,
    levenshtein_distance malloc_ok heap str1 str2 script = Done (distance, s).
Proof.
  intros Hfits.
  destruct (list_eq_nil_dec str1) as [->|H1]; [cbn; eauto|].
  destruct (list_eq_nil_dec str2) as [->|H2].
  { unfold levenshtein_distance. cbn [length Nat.eqb].
    destruct (length str1 =? 0)%nat; eauto. }
  destruct (table_of malloc_ok heap str1 str2) as [M|] eqn:HM;
    [destruct (malloc_ok (length str1 + 2)%nat) eqn:Hscript|].
  - destruct (levenshtein_distance_nonempty malloc_ok heap str1 str2
                script M) as (cells & stop & _ & ->); eauto.
  - unfold levenshtein_distance. rewrite Hscript.
    destruct (length str1 =? 0)%nat; [eauto|].
    destruct (length str2 =? 0)%nat; [eauto|].
    destruct (levenshtein_matrix_create _ _ _ _); [|eauto].
    destruct (levenshtein_matrix_calculate _ _ _ _ _). eauto.
  - unfold table_of in HM. unfold levenshtein_distance.
    destruct (length str1 =? 0)%nat; [eauto|].
    destruct (length str2 =? 0)%nat; [eauto|].
    destruct (levenshtein_matrix_create _ _ _ _); [discriminate|eauto].
Qed.

(** ** The table of ["aba"] and ["bab"] *)

(** C1.  The table built for ["aba"] and ["bab"] has the borders the claim
    states and the returned distance is the score of the last cell, but the
    score of the cell [(3, 3)] is not the minimum of its three candidates:
    deletion and insertion both give 2, substitution gives 3, and the cell
    holds 3. *)
Theorem levenshtein_matrix_score_not_minimum (heap : matrix) :
  exists mat,
    levenshtein_matrix_create always heap 3 3 = Some mat /\
    let (M, distance) :=
      levenshtein_matrix_calculate mat (str "aba") 3 (str "bab") 3 in
    (forall i, (i <= 3)%nat -> score (M i 0%nat) = Z.of_nat i) /\
    (forall j, (j <= 3)%nat -> score (M 0%nat j) = Z.of_nat j) /\
    distance = score (M 3%nat 3%nat) /\
    del_of M 3 3 = 2 /\
    ins_of M 3 3 = 2 /\
    subst_of M (str "aba") (str "bab") 3 3 = 3 /\
    score (M 3%nat 3%nat) = 3 /\
    score (M 3%nat 3%nat)
    <> Z.min (del_of M 3 3)
             (Z.min (ins_of M 3 3) (subst_of M (str "aba") (str "bab") 3 3)).
Proof.
  eexists. split; [reflexivity|].
  cbv beta iota zeta delta [levenshtein_matrix_calculate].
  split; [|split].
  - intros [|[|[|[|i]]]] Hi; try lia; vm_compute; reflexivity.
  - intros [|[|[|[|j]]]] Hj; try lia; vm_compute; reflexivity.
  - vm_compute. repeat split; congruence.
Qed.

(** C2.  In the cell [(3, 3)] of the table of ["aba"] and ["bab"] the
    deletion and the insertion candidates share the minimum, 2; the cell is
    recorded as a SUBSTITUTION with predecessor [(2, 2)], not as a DELETION
    with predecessor [(2, 3)]. *)
Theorem tie_of_deletion_and_insertion_recorded_as_substitution (heap : matrix) :
  exists M,
    table_of always heap (str "aba") (str "bab") = Some M /\
    del_of M 3 3 = ins_of M 3 3 /\
    del_of M 3 3 < subst_of M (str "aba") (str "bab") 3 3 /\
    type (M 3%nat 3%nat) = SUBSTITUTION /\
    prev (M 3%nat 3%nat) = Some (2%nat, 2%nat).
Proof.
  eexists. split; [reflexivity|].
  vm_compute. repeat split; congruence.
Qed.

(** C10.  [min3] returns its third argument when the first two are equal and
    smaller, and such a triple does come up while a table is filled: in the
    cell [(3, 3)] of ["aba"] and ["bab"] the candidates are 2, 2 and 3, so
    [del = ins] holds without [subst <= del], and [min3] yields 3. *)
Theorem min3_third_of_equal_smaller_pair_in_table (heap : matrix) :
  (forall a c, a < c -> min3 a a c = c) /\
  exists M,
    table_of always heap (str "aba") (str "bab") = Some M /\
    del_of M 3 3 = ins_of M 3 3 /\
    ~ subst_of M (str "aba") (str "bab") 3 3 <= del_of M 3 3 /\
    min3 (to_int (del_of M 3 3)) (to_int (ins_of M 3 3))
         (to_int (subst_of M (str "aba") (str "bab") 3 3)) = 3 /\
    Z.min (del_of M 3 3)
          (Z.min (ins_of M 3 3) (subst_of M (str "aba") (str "bab") 3 3)) = 2.
Proof.
  split.
  - intros a c Hac. unfold min3.
    rewrite Z.ltb_irrefl. cbn [andb]. reflexivity.
  - eexists. split; [reflexivity|].
    vm_compute. repeat split; congruence.
Qed.

(** C8.  The distances returned for ["aba"] to ["ab"] and for ["ab"] to
    ["bab"] are both 1, and the distance returned for ["aba"] to ["bab"] is
    3: the triangle inequality does not hold for these three strings. *)
Theorem levenshtein_distance_triangle_aba_ab_bab (heap : matrix)
    (script : script_ref) :
  exists dAC dAB dBC sAC sAB sBC,
    levenshtein_distance always heap (str "aba") (str "bab") script
    = Done (dAC, sAC) /\
    levenshtein_distance always heap (str "aba") (str "ab") script
    = Done (dAB, sAB) /\
    levenshtein_distance always heap (str "ab") (str "bab") script
    = Done (dBC, sBC) /\
    dAC = 3 /\ dAB = 1 /\ dBC = 1 /\ ~ dAC <= dAB + dBC.
Proof.
  do 6 eexists.
  split; [vm_compute; reflexivity|].
  split; [vm_compute; reflexivity|].
  split; [vm_compute; reflexivity|].
  repeat split; lia.
Qed.

(** ** Symmetry *)

(** The table of [str2] and [str1] holds the scores of the table of
    [str1] and [str2], transposed. *)
Lemma filled_transpose str1 str2 (M M' : matrix) i j :
  filled str1 str2 M -> filled str2 str1 M' ->
  (i <= length str1)%nat -> (j <= length str2)%nat ->
  score (M i j) = score (M' j i).
Proof.
  intros HM HM'.
  induction i as [|i IHi] in j |- *.
  - intros _ Hj.
    destruct (filled_row0 _ _ _ HM j Hj) as [-> _].
    now destruct (filled_column0 _ _ _ HM' j Hj) as [-> _].
  - intros Hi. induction j as [|j IHj].
    + intros _.
      destruct (filled_column0 _ _ _ HM (S i) Hi) as [-> _].
      now destruct (filled_row0 _ _ _ HM' (S i) Hi) as [-> _].
    + intros Hj.
      rewrite (filled_cell _ _ _ HM (S i) (S j)) by lia.
      rewrite (filled_cell _ _ _ HM' (S j) (S i)) by lia.
      cbn [calculate_cell score]. unfold del_of, ins_of, subst_of.
      replace (S i - 1)%nat with i by lia.
      replace (S j - 1)%nat with j by lia.
      rewrite <- (IHi (S j)) by lia.
      rewrite <- (IHi j) by lia.
      rewrite <- IHj by lia.
      rewrite (substitution_cost_of_sym str2 str1).
      now rewrite min3_swap.
Qed.

(** C7.  With every allocation granted, the distance returned for [str1]
    and [str2] is the distance returned for [str2] and [str1]. *)
Theorem levenshtein_distance_symmetric malloc_ok malloc_ok' heap heap'
    str1 str2 script script' :
  fits str1 str2 ->
  (forall k, malloc_ok k = true) -> (forall k, malloc_ok' k = true) ->
  exists distance s s',
    levenshtein_distance malloc_ok heap str1 str2 script
    = Done (distance, s) /\
    levenshtein_distance malloc_ok' heap' str2 str1 script'
    = Done (distance, s').
Proof.
  intros Hfits Hok Hok'.
  destruct (list_eq_nil_dec str1) as [->|H1].
  { unfold levenshtein_distance. cbn [length Nat.eqb].
    destruct (length str2 =? 0)%nat eqn:H2; [|eauto].
    apply Nat.eqb_eq in H2. rewrite H2. eauto. }
  destruct (list_eq_nil_dec str2) as [->|H2].
  { unfold levenshtein_distance. cbn [length Nat.eqb].
    destruct (length str1 =? 0)%nat eqn:Hl; [|eauto].
    apply Nat.eqb_eq in Hl. rewrite Hl. eauto. }
  assert (Hfits' : fits str2 str1) by (unfold fits in *; lia).
  destruct (table_of_Some malloc_ok heap str1 str2) as [M HM];
    [intros k _; apply Hok|].
  destruct (table_of_Some malloc_ok' heap' str2 str1) as [M' HM'];
    [intros k _; apply Hok'|].
  destruct (levenshtein_distance_nonempty malloc_ok heap str1 str2 script M)
    as (cells & stop & _ & ->); auto.
  destruct (levenshtein_distance_nonempty malloc_ok' heap' str2 str1 script' M')
    as (cells' & stop' & _ & ->); auto.
  rewrite (filled_transpose str1 str2 M M')
    by (eauto using table_of_filled).
  eauto.
Qed.

(** The two directions for ["kitten"] and ["sitting"]. *)
Lemma levenshtein_distance_symmetric_witness :
  exists distance s s',
    levenshtein_distance always junk_heap (str "kitten") (str "sitting") NULL
    = Done (distance, s) /\
    levenshtein_distance always junk_heap (str "sitting") (str "kitten") NULL
    = Done (distance, s').
Proof.
  apply (levenshtein_distance_symmetric always always junk_heap junk_heap
           (str "kitten") (str "sitting") NULL NULL).
  - reflexivity.
  - reflexivity.
  - reflexivity.
Defined.

(** ** The edit script *)

Lemma trace_from_table malloc_ok heap str1 str2 script M :
  str1 <> [] -> str2 <> [] -> fits str1 str2 ->
  (forall k, malloc_ok k = true) ->
  table_of malloc_ok heap str1 str2 = Some M ->
  exists cells stop,
    trace (S (length str1 + length str2)) M (length str1, length str2)
    = Some (cells, stop) /\
    levenshtein_distance malloc_ok heap str1 str2 script
    = Done (score (M (length str1) (length str2)),
            Script (replicate (Z.to_nat (score (M (fst stop) (snd stop)))) None
                    ++ map Some (rev (List.filter is_edit cells)))) /\
    (fst stop = 0 \/ snd stop = 0)%nat /\
    0 <= score (M (fst stop) (snd stop)) /\
    score (M (length str1) (length str2))
    = Z.of_nat (length (List.filter is_edit cells))
      + score (M (fst stop) (snd stop)) /\
    StronglySorted (fun x y => y <= x) (map pos cells).
Proof.
  intros H1 H2 Hfits Hok HM.
  pose proof (table_of_filled _ _ _ _ _ HM) as Hfilled.
  destruct (levenshtein_distance_nonempty malloc_ok heap str1 str2 script M)
    as (cells & stop & Htrace & Hrun); auto.
  destruct (filled_trace _ _ _ Hfilled Hfits
              (S (length str1 + length str2)) (length str1) (length str2))
    as (cells' & stop' & Htrace' & Hborder & Hsi & Hsj & Hscore & _ & Hsorted);
    [lia..|].
  rewrite Htrace in Htrace'. injection Htrace' as <- <-.
  pose proof (filled_score_bound _ _ _ Hfilled Hfits (fst stop) (snd stop)
                ltac:(lia) ltac:(lia)).
  exists cells, stop. repeat split; try assumption; lia.
Qed.

(** The slots the read-back loop writes.  For two non-empty strings the
    edits held by the script buffer are the edits met by the walk from the
    last cell to the border cell at which it stops, in reverse; none of
    them is a NONE, and their positions ascend.  The slots before them, if
    any, are left as they were allocated. *)
Theorem script_is_reversed_walk malloc_ok heap str1 str2 script :
  str1 <> [] -> str2 <> [] -> fits str1 str2 ->
  (forall k, malloc_ok k = true) ->
  exists M distance buf cells stop,
    table_of malloc_ok heap str1 str2 = Some M /\
    levenshtein_distance malloc_ok heap str1 str2 script
    = Done (distance, Script buf) /\
    trace (S (length str1 + length str2)) M (length str1, length str2)
    = Some (cells, stop) /\
    (fst stop = 0 \/ snd stop = 0)%nat /\
    (exists unfilled,
       buf = replicate unfilled None ++ map Some (script_edits (Script buf))) /\
    script_edits (Script buf) = rev (List.filter is_edit cells) /\
    Forall (fun e => type e <> NONE) (script_edits (Script buf)) /\
    StronglySorted Z.le (map pos (script_edits (Script buf))).
Proof.
  intros H1 H2 Hfits Hok.
  destruct (table_of_Some malloc_ok heap str1 str2) as [M HM];
    [intros k _; apply Hok|].
  destruct (trace_from_table malloc_ok heap str1 str2 script M)
    as (cells & stop & Htrace & Hrun & Hborder & _ & _ & Hsorted); auto.
  exists M. do 2 eexists. exists cells, stop.
  split; [assumption|]. split; [exact Hrun|]. split; [assumption|].
  split; [assumption|].
  cbn [script_edits]. rewrite omap_id_unfilled, omap_id_filled.
  split; [eexists; reflexivity|].
  split; [reflexivity|]. split.
  - apply List.Forall_forall. intros e He.
    rewrite <- in_rev in He. apply filter_In in He as [_ He].
    unfold is_edit in He. intros Hnone. rewrite Hnone in He. discriminate.
  - now apply edits_ascending.
Qed.

(** The script of ["CHALK"] and ["CHEESE"]. *)
Lemma script_is_reversed_walk_witness :
  exists M distance buf cells stop,
    table_of always junk_heap (str "CHALK") (str "CHEESE") = Some M /\
    levenshtein_distance always junk_heap (str "CHALK") (str "CHEESE") NULL
    = Done (distance, Script buf) /\
    trace (S (length (str "CHALK") + length (str "CHEESE"))) M
          (length (str "CHALK"), length (str "CHEESE"))
    = Some (cells, stop) /\
    (fst stop = 0 \/ snd stop = 0)%nat /\
    (exists unfilled,
       buf = replicate unfilled None ++ map Some (script_edits (Script buf))) /\
    script_edits (Script buf) = rev (List.filter is_edit cells) /\
    Forall (fun e => type e <> NONE) (script_edits (Script buf)) /\
    StronglySorted Z.le (map pos (script_edits (Script buf))).
Proof.
  apply (script_is_reversed_walk always junk_heap (str "CHALK")
           (str "CHEESE") NULL).
  - discriminate.
  - discriminate.
  - reflexivity.
  - reflexivity.
Defined.

(** C4.  The script returned is not the list of the edits the walk finds,
    read backwards.  For ["ab"] and ["b"] the walk visits one cell, of kind
    NONE, and finds no edit; the script returned has one entry, which was
    never written.  For ["aba"] and ["bab"] the walk visits a SUBSTITUTION,
    a DELETION and a NONE and stops at the border cell [(0, 1)]; the script
    returned has three entries, the last two are that DELETION and that
    SUBSTITUTION and the first was never written. *)
Theorem returned_script_has_unwritten_entries (heap : matrix)
    (script : script_ref) :
  (exists M cells stop,
     table_of always heap (str "ab") (str "b") = Some M /\
     trace (S (length (str "ab") + length (str "b"))) M
           (length (str "ab"), length (str "b"))
     = Some (cells, stop) /\
     stop = (1%nat, 0%nat) /\
     map type cells = [NONE] /\
     levenshtein_distance always heap (str "ab") (str "b") script
     = Done (1, Script [None])) /\
  (exists M substitution deletion none stop,
     table_of always heap (str "aba") (str "bab") = Some M /\
     trace (S (length (str "aba") + length (str "bab"))) M
           (length (str "aba"), length (str "bab"))
     = Some ([substitution; deletion; none], stop) /\
     stop = (0%nat, 1%nat) /\
     type substitution = SUBSTITUTION /\ type deletion = DELETION /\
     type none = NONE /\
     pos deletion = 1 /\ pos substitution = 2 /\
     levenshtein_distance always heap (str "aba") (str "bab") script
     = Done (3, Script [None; Some deletion; Some substitution])).
Proof.
  split.
  - do 3 eexists. split; [reflexivity|].
    split; [vm_compute; reflexivity|].
    split; [reflexivity|]. split; [reflexivity|]. vm_compute. reflexivity.
  - do 5 eexists. split; [reflexivity|].
    split; [vm_compute; reflexivity|].
    repeat (split; [reflexivity|]).
    vm_compute. reflexivity.
Qed.

(** An edit is skipped for its kind, not for its characters: the one edit of
    ["google"] and ["gogle"] is a DELETION read at a cell whose two
    characters are both ['o']. *)
Lemma deletion_at_equal_characters_copied (heap : matrix)
    (script : script_ref) :
  exists e,
    levenshtein_distance always heap (str "google") (str "gogle") script
    = Done (1, Script [Some e]) /\
    type e = DELETION /\ arg1 e = arg2 e /\ pos e = 2.
Proof.
  eexists. split; [vm_compute; reflexivity|].
  repeat split.
Qed.

(** C3.  For ["ab"] and ["b"] the call returns 1 and a script buffer of one
    slot, and that slot is never written: the walk starts at the cell
    [(2, 1)], whose kind is NONE, and stops at the border cell [(1, 0)],
    whose score is 1.  The script holds no edit where the distance is 1. *)
Theorem script_slot_left_unwritten (heap : matrix) (script : script_ref) :
  exists M cell,
    table_of always heap (str "ab") (str "b") = Some M /\
    trace (S (length (str "ab") + length (str "b"))) M
          (length (str "ab"), length (str "b"))
    = Some ([cell], (1%nat, 0%nat)) /\
    type cell = NONE /\
    score (M 1%nat 0%nat) = 1 /\
    levenshtein_distance always heap (str "ab") (str "b") script
    = Done (1, Script [None]) /\
    Z.of_nat (length (script_edits (Script [None]))) <> 1.
Proof.
  do 2 eexists. split; [reflexivity|].
  split; [vm_compute; reflexivity|].
  split; [reflexivity|]. split; [reflexivity|].
  split; [vm_compute; reflexivity|]. cbn. lia.
Qed.

(** How many slots the read-back loop writes.  For two non-empty strings
    the script buffer has as many slots as the distance returned, and the
    number of edits it holds is that distance less the score of the border
    cell at which the walk stops; when the walk stops at the cell [(0, 0)]
    every slot holds an edit. *)
Theorem script_length_and_border_score malloc_ok heap str1 str2 script :
  str1 <> [] -> str2 <> [] -> fits str1 str2 ->
  (forall k, malloc_ok k = true) ->
  exists M distance buf cells stop,
    table_of malloc_ok heap str1 str2 = Some M /\
    levenshtein_distance malloc_ok heap str1 str2 script
    = Done (distance, Script buf) /\
    trace (S (length str1 + length str2)) M (length str1, length str2)
    = Some (cells, stop) /\
    Z.of_nat (length buf) = distance /\
    Z.of_nat (length (script_edits (Script buf)))
    = distance - score (M (fst stop) (snd stop)) /\
    (stop = (0%nat, 0%nat) ->
     buf = map Some (script_edits (Script buf)) /\
     Z.of_nat (length (script_edits (Script buf))) = distance).
Proof.
  intros H1 H2 Hfits Hok.
  destruct (table_of_Some malloc_ok heap str1 str2) as [M HM];
    [intros k _; apply Hok|].
  destruct (trace_from_table malloc_ok heap str1 str2 script M)
    as (cells & stop & Htrace & Hrun & _ & Hstop & Hscore & _); auto.
  exists M. do 2 eexists. exists cells, stop.
  split; [assumption|]. split; [exact Hrun|]. split; [assumption|].
  cbn [script_edits]. rewrite omap_id_unfilled, omap_id_filled.
  rewrite length_app, length_replicate, length_map, !length_rev.
  split; [lia|]. split; [lia|].
  intros ->. cbn [fst snd] in *.
  destruct (filled_row0 _ _ _ (table_of_filled _ _ _ _ _ HM) 0%nat
              ltac:(lia)) as [H0 _].
  rewrite H0 in *. cbn [Z.of_nat Z.to_nat replicate app].
  split; [reflexivity|lia].
Qed.

(** The script of ["kitten"] and ["sitting"]. *)
Lemma script_length_and_border_score_witness :
  exists M distance buf cells stop,
    table_of always junk_heap (str "kitten") (str "sitting") = Some M /\
    levenshtein_distance always junk_heap (str "kitten") (str "sitting") NULL
    = Done (distance, Script buf) /\
    trace (S (length (str "kitten") + length (str "sitting"))) M
          (length (str "kitten"), length (str "sitting"))
    = Some (cells, stop) /\
    Z.of_nat (length buf) = distance /\
    Z.of_nat (length (script_edits (Script buf)))
    = distance - score (M (fst stop) (snd stop)) /\
    (stop = (0%nat, 0%nat) ->
     buf = map Some (script_edits (Script buf)) /\
     Z.of_nat (length (script_edits (Script buf))) = distance).
Proof.
  apply (script_length_and_border_score always junk_heap (str "kitten")
           (str "sitting") NULL).
  - discriminate.
  - discriminate.
  - reflexivity.
  - reflexivity.
Defined.

(** ** Empty strings *)




(** ** Allocation failure *)

(** C6, as stated, fails: when every allocation is refused, or the script
    buffer alone, the call for ["a"] and ["b"] returns 0 and a [NULL]
    script.  A call for ["a"] and ["a"] returns 0 as well, and its script
    is [NULL] too when the request of no bytes for its script buffer is
    answered with [NULL]. *)
Lemma allocation_failure_returns_zero_distance :
  levenshtein_distance never junk_heap (str "a") (str "b") (Script [])
  = Done (0, NULL) /\
  levenshtein_distance (fun k => negb (k =? 3)%nat) junk_heap
                       (str "a") (str "b") (Script [])
  = Done (0, NULL) /\
  levenshtein_distance (fun k => negb (k =? 3)%nat) junk_heap
                       (str "a") (str "a") (Script [])
  = Done (0, NULL) /\
  levenshtein_distance always junk_heap (str "a") (str "a") (Script [])
  = Done (0, Script []).
Proof. repeat split; vm_compute; reflexivity. Qed.

(** C6, amended.  When an allocation of the matrix or of the script buffer
    fails, the call for two non-empty strings sets [*script] to [NULL] and
    returns 0. *)
Theorem allocation_failure_returns_null malloc_ok heap str1 str2 script k :
  str1 <> [] -> str2 <> [] ->
  (k <= length str1 + 2)%nat -> malloc_ok k = false ->
  levenshtein_distance malloc_ok heap str1 str2 script = Done (0, NULL).
Proof.
  intros H1 H2 Hk Hfail. unfold levenshtein_distance.
  assert (Hl1 : (length str1 =? 0)%nat = false)
    by (destruct str1; [congruence|reflexivity]).
  assert (Hl2 : (length str2 =? 0)%nat = false)
    by (destruct str2; [congruence|reflexivity]).
  rewrite Hl1, Hl2.
  destruct (levenshtein_matrix_create _ _ _ _) as [mat|] eqn:Hcreate;
    [|reflexivity].
  destruct (levenshtein_matrix_calculate _ _ _ _ _) as [M distance].
  destruct (decide (k = length str1 + 2)%nat) as [->|Hne].
  - now rewrite Hfail.
  - rewrite (create_None malloc_ok heap (length str1) (length str2) k)
      in Hcreate by (lia || assumption).
    discriminate.
Qed.

(** Row 1 of the matrix of ["google"] and ["gogle"] is refused. *)
Lemma allocation_failure_returns_null_witness :
  levenshtein_distance (fun k => negb (k =? 2)%nat) junk_heap
                       (str "google") (str "gogle") (Script [])
  = Done (0, NULL).
Proof.
  apply (allocation_failure_returns_null (fun k => negb (k =? 2)%nat)
           junk_heap (str "google") (str "gogle") (Script []) 2).
  - discriminate.
  - discriminate.
  - cbn. lia.
  - reflexivity.
Defined.

(** ** Strings with no character in common *)

Lemma char_at_In str k : (k < length str)%nat -> In (char_at str k) str.
Proof. intros Hk. unfold char_at. now apply nth_In. Qed.

Lemma disjoint_substitution_cost str1 str2 i j :
  (forall c, In c str1 -> ~ In c str2) ->
  (1 <= i <= length str1)%nat -> (1 <= j <= length str2)%nat ->
  substitution_cost_of str1 str2 i j = 1.
Proof.
  intros Hdis Hi Hj. unfold substitution_cost_of.
  destruct (Ascii.eqb_spec (char_at str1 (i - 1)) (char_at str2 (j - 1)))
    as [Heq|]; [|reflexivity].
  exfalso. apply (Hdis (char_at str1 (i - 1))).
  - apply char_at_In. lia.
  - rewrite Heq. apply char_at_In. lia.
Qed.

Section Disjoint.

Variables (str1 str2 : list ascii) (M : matrix).
Hypothesis HM : filled str1 str2 M.
Hypothesis Hfits : fits str1 str2.
Hypothesis Hdis : forall c, In c str1 -> ~ In c str2.

(** Every score is the larger of the two prefix lengths. *)
Lemma disjoint_score i j :
  (i <= length str1)%nat -> (j <= length str2)%nat ->
  score (M i j) = Z.max (Z.of_nat i) (Z.of_nat j).
Proof.
  induction i as [|i IHi] in j |- *.
  - intros _ Hj. destruct (filled_row0 _ _ _ HM j Hj) as [-> _]. lia.
  - intros Hi. induction j as [|j IHj].
    + intros _. destruct (filled_column0 _ _ _ HM (S i) Hi) as [-> _]. lia.
    + intros Hj.
      rewrite (filled_score _ _ _ HM Hfits) by lia.
      rewrite (filled_del _ _ _ HM Hfits), (filled_ins _ _ _ HM Hfits),
        (filled_subst _ _ _ HM Hfits) by lia.
      rewrite disjoint_substitution_cost by (assumption || lia).
      replace (S i - 1)%nat with i by lia.
      replace (S j - 1)%nat with j by lia.
      rewrite (IHi (S j)), (IHi j), IHj by lia.
      unfold min3.
      destruct (Z.ltb_spec (Z.max (Z.of_nat i) (Z.of_nat (S j)) + 1)
                  (Z.max (Z.of_nat (S i)) (Z.of_nat j) + 1)),
        (Z.ltb_spec (Z.max (Z.of_nat i) (Z.of_nat (S j)) + 1)
           (Z.max (Z.of_nat i) (Z.of_nat j) + 1)),
        (Z.ltb_spec (Z.max (Z.of_nat (S i)) (Z.of_nat j) + 1)
           (Z.max (Z.of_nat i) (Z.of_nat (S j)) + 1)),
        (Z.ltb_spec (Z.max (Z.of_nat (S i)) (Z.of_nat j) + 1)
           (Z.max (Z.of_nat i) (Z.of_nat j) + 1)); cbn [andb]; lia.
Qed.

(** On the diagonal every cell is a substitution that comes from the cell
    before it on the diagonal. *)
Lemma disjoint_diagonal i :
  (1 <= i <= length str1)%nat -> (i <= length str2)%nat ->
  M i i = substitution_cell str1 str2 i.
Proof.
  intros Hi Hj.
  pose proof (filled_score _ _ _ HM Hfits i i ltac:(lia) ltac:(lia)) as Hs.
  rewrite (disjoint_score i i) in Hs by lia.
  pose proof (filled_del _ _ _ HM Hfits i i ltac:(lia) ltac:(lia)) as Hd.
  rewrite (disjoint_score (i - 1) i) in Hd by lia.
  pose proof (filled_ins _ _ _ HM Hfits i i ltac:(lia) ltac:(lia)) as Hn.
  rewrite (disjoint_score i (i - 1)) in Hn by lia.
  pose proof (disjoint_substitution_cost str1 str2 i i Hdis ltac:(lia)
                ltac:(lia)) as Hc.
  pose proof (filled_type _ _ _ HM i i ltac:(lia) ltac:(lia)) as Hty.
  pose proof (filled_prev _ _ _ HM i i ltac:(lia) ltac:(lia)) as Hpr.
  pose proof (filled_pos _ _ _ HM i i ltac:(lia) ltac:(lia)) as Hpo.
  rewrite (disjoint_score i i), Hd, Hn, Hc in Hty by lia.
  rewrite (disjoint_score i i), Hd, Hn in Hpr by lia.
  destruct (Z.eqb_spec (Z.max (Z.of_nat i) (Z.of_nat i))
              (Z.max (Z.of_nat (i - 1)) (Z.of_nat i) + 1)); [lia|].
  destruct (Z.eqb_spec (Z.max (Z.of_nat i) (Z.of_nat i))
              (Z.max (Z.of_nat i) (Z.of_nat (i - 1)) + 1)); [lia|].
  cbn in Hty.
  rewrite (filled_cell _ _ _ HM i i) in Hty, Hpr, Hpo |- * by lia.
  pose proof (disjoint_score i i ltac:(lia) ltac:(lia)) as Hsc.
  rewrite (filled_cell _ _ _ HM i i) in Hsc by lia.
  destruct (calculate_cell M str1 str2 i i) as [sc ty a1 a2 po pr] eqn:Hcell.
  cbn [score type pos prev] in *. subst.
  apply (f_equal arg1) in Hcell as Ha1. apply (f_equal arg2) in Hcell as Ha2.
  cbn [calculate_cell arg1 arg2] in Ha1, Ha2. subst.
  unfold substitution_cell. f_equal. lia.
Qed.

(** The walk from a cell of the diagonal runs down the diagonal to the
    cell [(0, 0)]. *)
Lemma disjoint_trace fuel i :
  (i <= length str1)%nat -> (i <= length str2)%nat -> (i < fuel)%nat ->
  trace fuel M (i, i)
  = Some (map (substitution_cell str1 str2) (rev (seq 1 i)), (0%nat, 0%nat)).
Proof.
  induction i as [|i IH] in fuel |- *; intros Hi Hj Hfuel;
    (destruct fuel as [|fuel]; [lia|]); cbn [trace fst snd].
  - now destruct (filled_row0 _ _ _ HM 0%nat ltac:(lia)) as [_ ->].
  - rewrite disjoint_diagonal by lia. cbn [substitution_cell prev].
    replace (S i - 1)%nat with i by lia.
    rewrite IH by lia.
    rewrite seq_S, rev_app_distr. reflexivity.
Qed.

End Disjoint.

Lemma filter_substitution_cells str1 str2 l :
  List.filter is_edit (map (substitution_cell str1 str2) l)
  = map (substitution_cell str1 str2) l.
Proof. induction l as [|i l IH]; cbn; [reflexivity|now rewrite IH]. Qed.

(** C9.  For two strings of the same length that have no character in
    common, the distance returned is that length, and the script, when the
    strings are not empty, holds one substitution for each position, in
    order; for two empty strings no script is built. *)
Theorem disjoint_strings_all_substitutions malloc_ok heap str1 str2 script :
  length str1 = length str2 ->
  (forall c, In c str1 -> ~ In c str2) ->
  fits str1 str2 ->
  (forall k, malloc_ok k = true) ->
  exists s,
    levenshtein_distance malloc_ok heap str1 str2 script
    = Done (Z.of_nat (length str1), s) /\
    (str1 = [] -> s = script) /\
    (str1 <> [] ->
     s = Script (map Some (map (substitution_cell str1 str2)
                             (seq 1 (length str1)))) /\
     Forall (fun e => type e = SUBSTITUTION) (script_edits s) /\
     length (script_edits s) = length str1).
Proof.
  intros Hlen Hdis Hfits Hok.
  destruct (list_eq_nil_dec str1) as [->|H1].
  { destruct str2; [|discriminate]. exists script. now repeat split. }
  assert (H2 : str2 <> []) by (destruct str1, str2; cbn in *; congruence).
  destruct (table_of_Some malloc_ok heap str1 str2) as [M HM];
    [intros k _; apply Hok|].
  pose proof (table_of_filled _ _ _ _ _ HM) as Hfilled.
  destruct (levenshtein_distance_nonempty malloc_ok heap str1 str2 script M)
    as (cells & stop & Htrace & ->); auto.
  rewrite <- Hlen in Htrace.
  rewrite (disjoint_trace str1 str2 M Hfilled Hfits Hdis) in Htrace by lia.
  injection Htrace as <- <-. cbn [fst snd].
  destruct (filled_row0 _ _ _ Hfilled 0%nat ltac:(lia)) as [-> _].
  rewrite Nat2Z.id. cbn [replicate app].
  rewrite filter_substitution_cells, <- map_rev, rev_involutive.
  rewrite <- Hlen, (disjoint_score str1 str2 M Hfilled Hfits Hdis) by lia.
  rewrite Z.max_id.
  eexists. split; [reflexivity|]. split; [congruence|].
  intros _. split; [reflexivity|].
  cbn [script_edits]. rewrite omap_id_filled.
  split.
  - apply List.Forall_forall. now intros e (i & <- & _)%in_map_iff.
  - now rewrite length_map, length_seq.
Qed.

(** The script of ["abc"] and ["xyz"]. *)
Lemma disjoint_strings_all_substitutions_witness :
  exists s,
    levenshtein_distance always junk_heap (str "abc") (str "xyz") NULL
    = Done (Z.of_nat (length (str "abc")), s) /\
    (str "abc" = [] -> s = NULL) /\
    (str "abc" <> [] ->
     s = Script (map Some (map (substitution_cell (str "abc") (str "xyz"))
                             (seq 1 (length (str "abc"))))) /\
     Forall (fun e => type e = SUBSTITUTION) (script_edits s) /\
     length (script_edits s) = length (str "abc")).
Proof.
  apply (disjoint_strings_all_substitutions always junk_heap (str "abc")
           (str "xyz") NULL).
  - reflexivity.
  - intros c Hc Hc'. cbn in Hc, Hc'.
    repeat (destruct Hc as [<-|Hc]; [now (repeat destruct Hc' as [Hc'|Hc']; try discriminate Hc')|]).
    exact Hc.
  - reflexivity.
  - reflexivity.
Defined.

(** ** Further properties of [min3] and of the table *)

(** X1.  [min3] returns one of its arguments, never more than the third;
    it is the minimum of the three exactly when its first two arguments
    are not equal and both smaller than the third. *)
Theorem min3_minimum_iff a b c :
  (min3 a b c = a \/ min3 a b c = b \/ min3 a b c = c) /\
  Z.min a (Z.min b c) <= min3 a b c <= c /\
  (min3 a b c = Z.min a (Z.min b c) <-> ~ (a = b /\ a < c)).
Proof.
  destruct (min3_cases a b c) as [[-> ?]|[[-> ?]|[-> ?]]]; lia.
Qed.

(** X2.  The table [levenshtein_distance] works on has column 0 and row 0
    numbered from 0, without predecessor; every other cell holds [min3] of
    its three candidates, computed without any wrap-around, the two
    characters it compares and the position of the first one. *)
Theorem table_of_recurrence malloc_ok heap str1 str2 M :
  table_of malloc_ok heap str1 str2 = Some M ->
  fits str1 str2 ->
  (forall i, (i <= length str1)%nat ->
     score (M i 0%nat) = Z.of_nat i /\ prev (M i 0%nat) = None) /\
  (forall j, (j <= length str2)%nat ->
     score (M 0%nat j) = Z.of_nat j /\ prev (M 0%nat j) = None) /\
  (forall i j, (i < length str1)%nat -> (j < length str2)%nat ->
     score (M (S i) (S j))
     = min3 (score (M i (S j)) + 1) (score (M (S i) j) + 1)
            (score (M i j) + substitution_cost_of str1 str2 (S i) (S j)) /\
     arg1 (M (S i) (S j)) = char_at str1 i /\
     arg2 (M (S i) (S j)) = char_at str2 j /\
     pos (M (S i) (S j)) = Z.of_nat i).
Proof.
  intros HM Hfits. apply table_of_filled in HM.
  split; [apply (filled_column0 _ _ _ HM)|].
  split; [apply (filled_row0 _ _ _ HM)|].
  intros i j Hi Hj.
  rewrite (filled_score _ _ _ HM Hfits) by lia.
  rewrite (filled_del _ _ _ HM Hfits), (filled_ins _ _ _ HM Hfits),
    (filled_subst _ _ _ HM Hfits) by lia.
  rewrite (filled_cell _ _ _ HM (S i) (S j)) by lia.
  cbn [calculate_cell arg1 arg2 pos].
  replace (S i - 1)%nat with i by lia.
  replace (S j - 1)%nat with j by lia.
  repeat split.
Qed.

(** The table of ["kitten"] and ["sitting"]. *)
Lemma table_of_recurrence_witness :
  exists M,
    table_of always junk_heap (str "kitten") (str "sitting") = Some M /\
    (forall i, (i <= length (str "kitten"))%nat ->
       score (M i 0%nat) = Z.of_nat i /\ prev (M i 0%nat) = None) /\
    (forall j, (j <= length (str "sitting"))%nat ->
       score (M 0%nat j) = Z.of_nat j /\ prev (M 0%nat j) = None) /\
    (forall i j, (i < length (str "kitten"))%nat ->
       (j < length (str "sitting"))%nat ->
       score (M (S i) (S j))
       = min3 (score (M i (S j)) + 1) (score (M (S i) j) + 1)
              (score (M i j)
               + substitution_cost_of (str "kitten") (str "sitting")
                                      (S i) (S j)) /\
       arg1 (M (S i) (S j)) = char_at (str "kitten") i /\
       arg2 (M (S i) (S j)) = char_at (str "sitting") j /\
       pos (M (S i) (S j)) = Z.of_nat i).
Proof.
  eexists. split; [reflexivity|].
  apply (table_of_recurrence always junk_heap (str "kitten") (str "sitting")).
  - reflexivity.
  - reflexivity.
Defined.

(** X3.  In a cell whose deletion and insertion candidates are not equal
    and both smaller than the substitution candidate, the score is the
    minimum of the three candidates and the kind and predecessor follow the
    order deletion, insertion, substitution; in the other cells the
    substitution candidate is taken. *)
Theorem table_of_tie_break malloc_ok heap str1 str2 M i j :
  table_of malloc_ok heap str1 str2 = Some M ->
  fits str1 str2 ->
  (1 <= i <= length str1)%nat -> (1 <= j <= length str2)%nat ->
  let del := score (M (i - 1)%nat j) + 1 in
  let ins := score (M i (j - 1)%nat) + 1 in
  let subst := score (M (i - 1)%nat (j - 1)%nat)
               + substitution_cost_of str1 str2 i j in
  let least := Z.min del (Z.min ins subst) in
  let kind := if 0 <? substitution_cost_of str1 str2 i j
              then SUBSTITUTION else NONE in
  (~ (del = ins /\ del < subst) ->
   score (M i j) = least /\
   (del = least ->
    type (M i j) = DELETION /\ prev (M i j) = Some ((i - 1)%nat, j)) /\
   (del <> least -> ins = least ->
    type (M i j) = INSERTION /\ prev (M i j) = Some (i, (j - 1)%nat)) /\
   (del <> least -> ins <> least ->
    type (M i j) = kind /\
    prev (M i j) = Some ((i - 1)%nat, (j - 1)%nat))) /\
  (del = ins /\ del < subst ->
   score (M i j) = subst /\
   type (M i j) = kind /\
   prev (M i j) = Some ((i - 1)%nat, (j - 1)%nat)).
Proof.
  intros HM Hfits Hi Hj. apply table_of_filled in HM.
  pose proof (filled_tie_break _ _ _ HM Hfits i j Hi Hj) as H.
  rewrite (filled_del _ _ _ HM Hfits), (filled_ins _ _ _ HM Hfits),
    (filled_subst _ _ _ HM Hfits) in H by assumption.
  exact H.
Qed.

(** The last cell of the table of ["CHALK"] and ["CHEESE"]. *)
Lemma table_of_tie_break_witness :
  exists M,
    table_of always junk_heap (str "CHALK") (str "CHEESE") = Some M /\
    let del := score (M 4%nat 6%nat) + 1 in
    let ins := score (M 5%nat 5%nat) + 1 in
    let subst := score (M 4%nat 5%nat)
                 + substitution_cost_of (str "CHALK") (str "CHEESE") 5 6 in
    let least := Z.min del (Z.min ins subst) in
    let kind := if 0 <? substitution_cost_of (str "CHALK") (str "CHEESE") 5 6
                then SUBSTITUTION else NONE in
    (~ (del = ins /\ del < subst) ->
     score (M 5%nat 6%nat) = least /\
     (del = least ->
      type (M 5%nat 6%nat) = DELETION /\
      prev (M 5%nat 6%nat) = Some (4%nat, 6%nat)) /\
     (del <> least -> ins = least ->
      type (M 5%nat 6%nat) = INSERTION /\
      prev (M 5%nat 6%nat) = Some (5%nat, 5%nat)) /\
     (del <> least -> ins <> least ->
      type (M 5%nat 6%nat) = kind /\
      prev (M 5%nat 6%nat) = Some (4%nat, 5%nat))) /\
    (del = ins /\ del < subst ->
     score (M 5%nat 6%nat) = subst /\
     type (M 5%nat 6%nat) = kind /\
     prev (M 5%nat 6%nat) = Some (4%nat, 5%nat)).
Proof.
  eexists. split; [reflexivity|].
  apply (table_of_tie_break always junk_heap (str "CHALK") (str "CHEESE")
           _ 5 6).
  - reflexivity.
  - reflexivity.
  - cbn. lia.
  - cbn. lia.
Defined.

(** ** Bounds on the scores *)

Lemma wagner_fischer_cell str1 str2 i j :
  wagner_fischer str1 str2 (S i) (S j)
  = Z.min (wagner_fischer str1 str2 i (S j) + 1)
      (Z.min (wagner_fischer str1 str2 (S i) j + 1)
         (wagner_fischer str1 str2 i j
          + substitution_cost_of str1 str2 (S i) (S j))).
Proof. reflexivity. Qed.

Lemma wagner_fischer_column0 str1 str2 i :
  wagner_fischer str1 str2 i 0 = Z.of_nat i.
Proof. now destruct i. Qed.

Lemma firstn_S_nth {A} (l : list A) n d :
  (n < length l)%nat -> firstn (S n) l = firstn n l ++ [nth n l d].
Proof.
  induction l as [|x l IH] in n |- *; cbn [length]; [lia|].
  intros Hn. destruct n as [|n]; [reflexivity|].
  cbn [firstn nth app]. f_equal. apply IH. lia.
Qed.

Section Bounds.

Variables (str1 str2 : list ascii) (M : matrix).
Hypothesis HM : filled str1 str2 M.
Hypothesis Hfits : fits str1 str2.

(** The score of a cell, as the code computes it from the three cells
    before it. *)
Lemma filled_score_cell i j :
  (i < length str1)%nat -> (j < length str2)%nat ->
  score (M (S i) (S j))
  = min3 (score (M i (S j)) + 1) (score (M (S i) j) + 1)
         (score (M i j) + substitution_cost_of str1 str2 (S i) (S j)).
Proof.
  intros Hi Hj.
  rewrite (filled_score _ _ _ HM Hfits) by lia.
  rewrite (filled_del _ _ _ HM Hfits), (filled_ins _ _ _ HM Hfits),
    (filled_subst _ _ _ HM Hfits) by lia.
  replace (S i - 1)%nat with i by lia.
  replace (S j - 1)%nat with j by lia.
  reflexivity.
Qed.

(** A score is at least the difference of the two prefix lengths and at
    most the larger of them. *)
Lemma filled_score_range i j :
  (i <= length str1)%nat -> (j <= length str2)%nat ->
  Z.abs (Z.of_nat i - Z.of_nat j) <= score (M i j)
  <= Z.max (Z.of_nat i) (Z.of_nat j).
Proof.
  induction i as [|i IHi] in j |- *.
  - intros _ Hj. destruct (filled_row0 _ _ _ HM j Hj) as [-> _]. lia.
  - intros Hi. induction j as [|j IHj].
    + intros _. destruct (filled_column0 _ _ _ HM (S i) Hi) as [-> _]. lia.
    + intros Hj. rewrite filled_score_cell by lia.
      pose proof (IHi (S j) ltac:(lia) ltac:(lia)).
      pose proof (IHi j ltac:(lia) ltac:(lia)).
      pose proof (IHj ltac:(lia)).
      pose proof (substitution_cost_of_range str1 str2 (S i) (S j)).
      match goal with |- context [min3 ?a ?b ?c] =>
        destruct (min3_cases a b c) as [[-> ?]|[[-> ?]|[-> ?]]]; lia end.
Qed.

(** No score is below the entry of the table of Wagner and Fischer. *)
Lemma filled_above_wagner_fischer i j :
  (i <= length str1)%nat -> (j <= length str2)%nat ->
  wagner_fischer str1 str2 i j <= score (M i j).
Proof.
  induction i as [|i IHi] in j |- *.
  - intros _ Hj. destruct (filled_row0 _ _ _ HM j Hj) as [-> _].
    reflexivity.
  - intros Hi. induction j as [|j IHj].
    + intros _. destruct (filled_column0 _ _ _ HM (S i) Hi) as [-> _].
      rewrite wagner_fischer_column0. reflexivity.
    + intros Hj. rewrite filled_score_cell, wagner_fischer_cell by lia.
      pose proof (IHi (S j) ltac:(lia) ltac:(lia)).
      pose proof (IHi j ltac:(lia) ltac:(lia)).
      pose proof (IHj ltac:(lia)).
      match goal with |- context [min3 ?a ?b ?c] =>
        destruct (min3_cases a b c) as [[-> ?]|[[-> ?]|[-> ?]]]; lia end.
Qed.

(** A score of 0 is found on the diagonal only, between equal prefixes. *)
Lemma filled_score_zero i j :
  (i <= length str1)%nat -> (j <= length str2)%nat ->
  score (M i j) = 0 -> i = j /\ firstn i str1 = firstn j str2.
Proof.
  induction i as [|i IHi] in j |- *.
  - intros _ Hj. destruct (filled_row0 _ _ _ HM j Hj) as [-> _].
    intros Hz. assert (j = 0%nat) as -> by lia. now split.
  - intros Hi. destruct j as [|j].
    + intros _. destruct (filled_column0 _ _ _ HM (S i) Hi) as [-> _]. lia.
    + intros Hj. rewrite filled_score_cell by lia.
      pose proof (filled_score_range i (S j) ltac:(lia) ltac:(lia)).
      pose proof (filled_score_range (S i) j ltac:(lia) ltac:(lia)).
      pose proof (filled_score_range i j ltac:(lia) ltac:(lia)).
      pose proof (substitution_cost_of_range str1 str2 (S i) (S j)) as Hc.
      intros Hz.
      assert (Hs : score (M i j) = 0
                   /\ substitution_cost_of str1 str2 (S i) (S j) = 0).
      { revert Hz.
        match goal with |- context [min3 ?a ?b ?c] =>
          destruct (min3_cases a b c) as [[-> ?]|[[-> ?]|[-> ?]]]; lia end. }
      destruct Hs as [Hs Hcost].
      destruct (IHi j ltac:(lia) ltac:(lia) Hs) as [-> Hpre].
      split; [reflexivity|].
      unfold substitution_cost_of in Hcost.
      replace (S j - 1)%nat with j in Hcost by lia.
      destruct (Ascii.eqb_spec (char_at str1 j) (char_at str2 j))
        as [Heq|]; [|discriminate].
      unfold char_at in Heq.
      rewrite (firstn_S_nth str1 j zero), (firstn_S_nth str2 j zero) by lia.
      now rewrite Hpre, Heq.
Qed.

End Bounds.

(** ** Bounds on the distance returned *)

(** The three ways a call with every allocation granted ends. *)
Lemma levenshtein_distance_cases malloc_ok heap str1 str2 script :
  fits str1 str2 -> (forall k, malloc_ok k = true) ->
  (str1 = [] /\
   levenshtein_distance malloc_ok heap str1 str2 script
   = Done (Z.of_nat (length str2), script)) \/
  (str1 <> [] /\ str2 = [] /\
   levenshtein_distance malloc_ok heap str1 str2 script
   = Done (Z.of_nat (length str1), script)) \/
  (str1 <> [] /\ str2 <> [] /\
   exists M cells stop,
     filled str1 str2 M /\
     trace (S (length str1 + length str2)) M (length str1, length str2)
     = Some (cells, stop) /\
     0 <= score (M (fst stop) (snd stop)) /\
     score (M (length str1) (length str2))
     = Z.of_nat (length (List.filter is_edit cells))
       + score (M (fst stop) (snd stop)) /\
     levenshtein_distance malloc_ok heap str1 str2 script
     = Done (score (M (length str1) (length str2)),
             Script (replicate (Z.to_nat (score (M (fst stop) (snd stop))))
                       None
                     ++ map Some (rev (List.filter is_edit cells))))).
Proof.
  intros Hfits Hok.
  assert (Hlen : Z.of_nat (length str1) < 2 ^ 32
                 /\ Z.of_nat (length str2) < 2 ^ 32)
    by (unfold fits in Hfits; rewrite two_31 in Hfits; rewrite two_32; lia).
  destruct (list_eq_nil_dec str1) as [->|H1].
  { left. split; [reflexivity|].
    unfold levenshtein_distance. cbn [length Nat.eqb].
    now rewrite to_uint_small by lia. }
  destruct (list_eq_nil_dec str2) as [->|H2].
  { right; left. repeat split; [assumption|].
    unfold levenshtein_distance. cbn [length Nat.eqb].
    destruct (Nat.eqb_spec (length str1) 0) as [H0|_];
      [now destruct str1|].
    now rewrite to_uint_small by lia. }
  right; right. repeat split; try assumption.
  destruct (table_of_Some malloc_ok heap str1 str2) as [M HM];
    [intros k _; apply Hok|].
  destruct (trace_from_table malloc_ok heap str1 str2 script M)
    as (cells & stop & Htrace & Hrun & _ & Hstop & Hscore & _); auto.
  exists M, cells, stop.
  split; [now apply table_of_filled in HM|]. repeat split; assumption.
Qed.

(** X4.  With every allocation granted, the distance returned is at least
    the difference of the two lengths and at most the larger of them. *)
Theorem levenshtein_distance_bounds malloc_ok heap str1 str2 script :
  fits str1 str2 -> (forall k, malloc_ok k = true) ->
  exists distance s,
    levenshtein_distance malloc_ok heap str1 str2 script
    = Done (distance, s) /\
    Z.abs (Z.of_nat (length str1) - Z.of_nat (length str2)) <= distance
    <= Z.max (Z.of_nat (length str1)) (Z.of_nat (length str2)).
Proof.
  intros Hfits Hok.
  destruct (levenshtein_distance_cases malloc_ok heap str1 str2 script
              Hfits Hok)
    as [[-> ->]|[(_ & -> & ->)|(_ & _ & M & cells & stop & HM & _ & _ & _ & ->)]].
  - do 2 eexists. split; [reflexivity|]. cbn [length]. lia.
  - do 2 eexists. split; [reflexivity|]. cbn [length]. lia.
  - do 2 eexists. split; [reflexivity|].
    apply (filled_score_range _ _ _ HM Hfits); lia.
Qed.

(** The bounds for ["google"] and ["gogle"]. *)
Lemma levenshtein_distance_bounds_witness :
  exists distance s,
    levenshtein_distance always junk_heap (str "google") (str "gogle") NULL
    = Done (distance, s) /\
    Z.abs (Z.of_nat (length (str "google")) - Z.of_nat (length (str "gogle")))
    <= distance
    <= Z.max (Z.of_nat (length (str "google")))
             (Z.of_nat (length (str "gogle"))).
Proof.
  apply (levenshtein_distance_bounds always junk_heap (str "google")
           (str "gogle") NULL).
  - reflexivity.
  - reflexivity.
Defined.

(** X5.  With every allocation granted, the distance returned is never
    below the entry of the table of Wagner and Fischer for the two whole
    strings: the call may overestimate the edit distance, it does not
    underestimate it. *)
Theorem levenshtein_distance_above_wagner_fischer malloc_ok heap str1 str2
    script :
  fits str1 str2 -> (forall k, malloc_ok k = true) ->
  exists distance s,
    levenshtein_distance malloc_ok heap str1 str2 script
    = Done (distance, s) /\
    wagner_fischer str1 str2 (length str1) (length str2) <= distance.
Proof.
  intros Hfits Hok.
  destruct (levenshtein_distance_cases malloc_ok heap str1 str2 script
              Hfits Hok)
    as [[-> ->]|[(_ & -> & ->)|(_ & _ & M & cells & stop & HM & _ & _ & _ & ->)]].
  - do 2 eexists. split; reflexivity.
  - do 2 eexists. split; [reflexivity|].
    rewrite wagner_fischer_column0. reflexivity.
  - do 2 eexists. split; [reflexivity|].
    apply (filled_above_wagner_fischer _ _ _ HM Hfits); lia.
Qed.

(** ["aba"] and ["bab"]: the table of Wagner and Fischer gives 2, the call
    returns 3. *)
Lemma levenshtein_distance_above_wagner_fischer_witness :
  wagner_fischer (str "aba") (str "bab") 3 3 = 2 /\
  exists distance s,
    levenshtein_distance always junk_heap (str "aba") (str "bab") NULL
    = Done (distance, s) /\
    wagner_fischer (str "aba") (str "bab") (length (str "aba"))
                   (length (str "bab")) <= distance.
Proof.
  split; [reflexivity|].
  apply (levenshtein_distance_above_wagner_fischer always junk_heap
           (str "aba") (str "bab") NULL).
  - reflexivity.
  - reflexivity.
Defined.

(** ** Equal strings *)

(** The diagonal of the table of a string and itself holds 0. *)
Lemma filled_equal_diagonal str M i :
  filled str str M -> fits str str -> (i <= length str)%nat ->
  score (M i i) = 0.
Proof.
  intros HM Hfits. induction i as [|i IH]; intros Hi.
  - now destruct (filled_row0 _ _ _ HM 0%nat ltac:(lia)) as [-> _].
  - rewrite (filled_score_cell _ _ _ HM Hfits) by lia.
    pose proof (filled_score_range _ _ _ HM Hfits i (S i) ltac:(lia)
                  ltac:(lia)).
    pose proof (filled_score_range _ _ _ HM Hfits (S i) i ltac:(lia)
                  ltac:(lia)).
    rewrite IH by lia.
    unfold substitution_cost_of. rewrite Ascii.eqb_refl.
    match goal with |- context [min3 ?a ?b ?c] =>
      destruct (min3_cases a b c) as [[-> ?]|[[-> ?]|[-> ?]]]; lia end.
Qed.

(** X6.  With every allocation granted, the distance returned is 0 exactly
    when the two strings are equal. *)
Theorem levenshtein_distance_zero_iff_equal malloc_ok heap str1 str2 script :
  fits str1 str2 -> (forall k, malloc_ok k = true) ->
  exists distance s,
    levenshtein_distance malloc_ok heap str1 str2 script
    = Done (distance, s) /\
    (distance = 0 <-> str1 = str2).
Proof.
  intros Hfits Hok.
  destruct (levenshtein_distance_cases malloc_ok heap str1 str2 script
              Hfits Hok)
    as [[-> ->]|[(H1 & -> & ->)|(_ & _ & M & cells & stop & HM & _ & _ & _ & ->)]].
  - do 2 eexists. split; [reflexivity|].
    destruct str2; cbn [length]; split; (congruence || lia).
  - do 2 eexists. split; [reflexivity|].
    destruct str1; cbn [length]; split; (congruence || lia).
  - do 2 eexists. split; [reflexivity|]. split.
    + intros Hz.
      destruct (filled_score_zero _ _ _ HM Hfits (length str1) (length str2)
                  ltac:(lia) ltac:(lia) Hz) as [_ Heq].
      now rewrite !firstn_all in Heq.
    + intros <-. apply (filled_equal_diagonal str1 M _ HM Hfits). lia.
Qed.

(** ["kitten"] and ["sitting"] differ, and their distance is not 0. *)
Lemma levenshtein_distance_zero_iff_equal_witness :
  exists distance s,
    levenshtein_distance always junk_heap (str "kitten") (str "sitting") NULL
    = Done (distance, s) /\
    (distance = 0 <-> str "kitten" = str "sitting").
Proof.
  apply (levenshtein_distance_zero_iff_equal always junk_heap (str "kitten")
           (str "sitting") NULL).
  - reflexivity.
  - reflexivity.
Defined.

(** X7.  For a non-empty string and itself, with every allocation granted,
    the call returns 0 and a script buffer of no slots. *)
Theorem levenshtein_distance_same_string malloc_ok heap str script :
  str <> [] -> fits str str -> (forall k, malloc_ok k = true) ->
  levenshtein_distance malloc_ok heap str str script = Done (0, Script []).
Proof.
  intros Hne Hfits Hok.
  destruct (levenshtein_distance_cases malloc_ok heap str str script
              Hfits Hok)
    as [[-> _]|[(_ & -> & _)|(_ & _ & M & cells & stop & HM & _ & Hstop
                              & Hscore & ->)]];
    [congruence..|].
  rewrite (filled_equal_diagonal str M (length str) HM Hfits) in * by lia.
  assert (Hs : score (M (fst stop) (snd stop)) = 0) by lia.
  rewrite Hs in *. cbn [Z.to_nat replicate app].
  destruct (List.filter is_edit cells); [reflexivity|cbn [length] in *; lia].
Qed.

(** ["abc"] and itself. *)
Lemma levenshtein_distance_same_string_witness :
  levenshtein_distance always junk_heap (str "abc") (str "abc") NULL
  = Done (0, Script []).
Proof.
  apply (levenshtein_distance_same_string always junk_heap (str "abc") NULL).
  - discriminate.
  - reflexivity.
  - reflexivity.
Defined.

(** X8.  Whatever the allocator answers, a call on strings whose lengths
    sum to less than 2^31 returns: the read-back loop stops within the
    fuel it is given and never writes outside the script buffer. *)
Theorem levenshtein_distance_never_faults malloc_ok heap str1 str2 script :
  fits str1 str2 ->
  levenshtein_distance malloc_ok heap str1 str2 script <> Fault /\
  levenshtein_distance malloc_ok heap str1 str2 script <> OutOfFuel.
Proof.
  intros Hfits.
  destruct (levenshtein_distance_returns malloc_ok heap str1 str2 script
              Hfits) as (distance & s & ->).
  split; discriminate.
Qed.

(** ["ab"] and ["b"], whose walk stops before the cell [(0, 0)]. *)
Lemma levenshtein_distance_never_faults_witness :
  levenshtein_distance always junk_heap (str "ab") (str "b") NULL <> Fault /\
  levenshtein_distance always junk_heap (str "ab") (str "b") NULL
  <> OutOfFuel.
Proof.
  apply (levenshtein_distance_never_faults always junk_heap (str "ab")
           (str "b") NULL).
  reflexivity.
Defined.

(** ** Fresh memory and the caller's script do not matter *)

(** A cell is computed from the scores of three cells only. *)
Lemma calculate_cell_scores (m1 m2 : matrix) str1 str2 i j :
  score (m1 (i - 1)%nat j) = score (m2 (i - 1)%nat j) ->
  score (m1 i (j - 1)%nat) = score (m2 i (j - 1)%nat) ->
  score (m1 (i - 1)%nat (j - 1)%nat) = score (m2 (i - 1)%nat (j - 1)%nat) ->
  calculate_cell m1 str1 str2 i j = calculate_cell m2 str1 str2 i j.
Proof.
  intros Hd Hi Hs. unfold calculate_cell, del_of, ins_of, subst_of.
  now rewrite Hd, Hi, Hs.
Qed.

Section Agree.

Variables (str1 str2 : list ascii) (M M' : matrix).
Hypothesis HM : filled str1 str2 M.
Hypothesis HM' : filled str1 str2 M'.

Lemma filled_scores_agree i j :
  (i <= length str1)%nat -> (j <= length str2)%nat ->
  score (M i j) = score (M' i j).
Proof.
  induction i as [|i IHi] in j |- *.
  - intros _ Hj. destruct (filled_row0 _ _ _ HM j Hj) as [-> _].
    now destruct (filled_row0 _ _ _ HM' j Hj) as [-> _].
  - intros Hi. induction j as [|j IHj].
    + intros _. destruct (filled_column0 _ _ _ HM (S i) Hi) as [-> _].
      now destruct (filled_column0 _ _ _ HM' (S i) Hi) as [-> _].
    + intros Hj.
      rewrite (filled_cell _ _ _ HM (S i) (S j)) by lia.
      rewrite (filled_cell _ _ _ HM' (S i) (S j)) by lia.
      f_equal. apply calculate_cell_scores;
        replace (S i - 1)%nat with i by lia;
        replace (S j - 1)%nat with j by lia.
      * apply IHi; lia.
      * apply IHj; lia.
      * apply IHi; lia.
Qed.

Lemma filled_cells_agree i j :
  (1 <= i <= length str1)%nat -> (1 <= j <= length str2)%nat ->
  M i j = M' i j.
Proof.
  intros Hi Hj.
  rewrite (filled_cell _ _ _ HM i j), (filled_cell _ _ _ HM' i j)
    by assumption.
  apply calculate_cell_scores; apply filled_scores_agree; lia.
Qed.

(** The predecessor of a cell inside the table is one of its three
    neighbours. *)
Lemma filled_prev_neighbour i j :
  (1 <= i <= length str1)%nat -> (1 <= j <= length str2)%nat ->
  prev (M i j) = Some ((i - 1)%nat, j) \/
  prev (M i j) = Some (i, (j - 1)%nat) \/
  prev (M i j) = Some ((i - 1)%nat, (j - 1)%nat).
Proof.
  intros Hi Hj. rewrite (filled_prev _ _ _ HM i j Hi Hj).
  destruct (_ =? _); [now left|].
  destruct (_ =? _); [now right; left|now right; right].
Qed.

Lemma read_back_agree fuel i j idx buf :
  (i <= length str1)%nat -> (j <= length str2)%nat ->
  read_back fuel M (i, j) idx buf = read_back fuel M' (i, j) idx buf.
Proof.
  induction fuel as [|fuel IH] in i, j, idx, buf |- *; [reflexivity|].
  intros Hi Hj. cbn [read_back fst snd].
  destruct (decide (i = 0%nat)) as [->|Hi0].
  { destruct (filled_row0 _ _ _ HM j Hj) as [_ ->].
    now destruct (filled_row0 _ _ _ HM' j Hj) as [_ ->]. }
  destruct (decide (j = 0%nat)) as [->|Hj0].
  { destruct (filled_column0 _ _ _ HM i Hi) as [_ ->].
    now destruct (filled_column0 _ _ _ HM' i Hi) as [_ ->]. }
  rewrite <- (filled_cells_agree i j) by lia.
  destruct (filled_prev_neighbour i j) as [->|[->| ->]]; [lia..| | |];
    (destruct (edit_type_eqb _ _); [apply IH; lia|]);
    (destruct (_ <? _); [apply IH; lia|reflexivity]).
Qed.

End Agree.

Lemma create_heap_irrelevant malloc_ok heap heap' len1 len2 :
  levenshtein_matrix_create malloc_ok heap len1 len2 = None <->
  levenshtein_matrix_create malloc_ok heap' len1 len2 = None.
Proof.
  unfold levenshtein_matrix_create.
  destruct (negb (malloc_ok 0%nat)); [tauto|].
  destruct (negb (forallb _ _)); [tauto|].
  split; discriminate.
Qed.

(** X9.  For two non-empty strings the outcome of a call depends neither
    on what the freshly allocated rows of the matrix hold nor on the value
    of [*script] on entry: the cells and fields that
    [levenshtein_matrix_create] leaves unset are never used. *)
Theorem levenshtein_distance_ignores_heap malloc_ok heap heap' str1 str2
    script script' :
  str1 <> [] -> str2 <> [] ->
  levenshtein_distance malloc_ok heap str1 str2 script
  = levenshtein_distance malloc_ok heap' str1 str2 script'.
Proof.
  intros H1 H2. unfold levenshtein_distance.
  assert (Hl1 : (length str1 =? 0)%nat = false)
    by (destruct str1; [congruence|reflexivity]).
  assert (Hl2 : (length str2 =? 0)%nat = false)
    by (destruct str2; [congruence|reflexivity]).
  rewrite Hl1, Hl2.
  pose proof (create_heap_irrelevant malloc_ok heap heap' (length str1)
                (length str2)) as Hnone.
  destruct (levenshtein_matrix_create malloc_ok heap _ _) as [mat|] eqn:Hc;
    destruct (levenshtein_matrix_create malloc_ok heap' _ _) as [mat'|]
      eqn:Hc'; try reflexivity;
    try (destruct Hnone as [Ha Hb]; (specialize (Ha eq_refl) ||
                                      specialize (Hb eq_refl)); discriminate).
  pose proof (create_calculate_filled _ _ _ _ _ Hc) as HM.
  pose proof (create_calculate_filled _ _ _ _ _ Hc') as HM'.
  pose proof (calculate_returns mat str1 (length str1) str2 (length str2))
    as Hd.
  pose proof (calculate_returns mat' str1 (length str1) str2 (length str2))
    as Hd'.
  destruct (levenshtein_matrix_calculate mat _ _ _ _) as [M d].
  destruct (levenshtein_matrix_calculate mat' _ _ _ _) as [M' d'].
  cbn [fst snd] in *. subst d d'.
  rewrite (filled_scores_agree str1 str2 M M' HM HM') by lia.
  now rewrite (read_back_agree str1 str2 M M' HM HM') by lia.
Qed.

(** Two heaps and two scripts for ["CHALK"] and ["CHEESE"]. *)
Lemma levenshtein_distance_ignores_heap_witness :
  levenshtein_distance always junk_heap (str "CHALK") (str "CHEESE") NULL
  = levenshtein_distance always
      (fun i j => border_cell junk (i + j)) (str "CHALK") (str "CHEESE")
      (Script [None]).
Proof.
  apply (levenshtein_distance_ignores_heap always junk_heap
           (fun i j => border_cell junk (i + j)) (str "CHALK")
           (str "CHEESE") NULL (Script [None])).
  - discriminate.
  - discriminate.
Defined.

(** ** What the edits of a script hold *)

(** The walk from a cell of the table only meets cells inside the table,
    above and to the left of where it starts. *)
Lemma filled_trace_cells str1 str2 M fuel i j cells stop :
  filled str1 str2 M ->
  (i <= length str1)%nat -> (j <= length str2)%nat ->
  trace fuel M (i, j) = Some (cells, stop) ->
  Forall (fun c => exists i' j',
            (1 <= i' <= i)%nat /\ (1 <= j' <= j)%nat /\ c = M i' j') cells.
Proof.
  intros HM.
  induction fuel as [|fuel IH] in i, j, cells |- *; [discriminate|].
  intros Hi Hj. cbn [trace fst snd].
  destruct (decide (i = 0%nat)) as [->|Hi0].
  { destruct (filled_row0 _ _ _ HM j Hj) as [_ ->]. intros [= <- _].
    constructor. }
  destruct (decide (j = 0%nat)) as [->|Hj0].
  { destruct (filled_column0 _ _ _ HM i Hi) as [_ ->]. intros [= <- _].
    constructor. }
  assert (Hstep : forall i' j', (i' <= i)%nat -> (j' <= j)%nat ->
            match trace fuel M (i', j') with
            | Some (cells0, stop0) => Some (M i j :: cells0, stop0)
            | None => None
            end = Some (cells, stop) ->
            Forall (fun c => exists i0 j0,
                      (1 <= i0 <= i)%nat /\ (1 <= j0 <= j)%nat /\ c = M i0 j0)
                   cells).
  { intros i' j' Hi' Hj'.
    destruct (trace fuel M (i', j')) as [[cells0 stop0]|] eqn:Htr;
      [|discriminate].
    intros [= <- <-]. constructor.
    - exists i, j. repeat split; lia.
    - eapply Forall_impl; [apply (IH i' j' cells0); (lia || assumption)|].
      cbn. intros c (i0 & j0 & ? & ? & ->). exists i0, j0.
      repeat split; lia. }
  destruct (filled_prev_neighbour _ _ _ HM i j) as [->|[->| ->]];
    [lia..| | |]; apply Hstep; lia.
Qed.

(** X10.  Every edit of the script returned for two non-empty strings is a
    copy of a cell inside the table: its position is an index into the
    first string, its first character is the character of the first string
    at that position, its second character is a character of the second
    string, and its kind is not NONE. *)
Theorem script_edits_fields malloc_ok heap str1 str2 script :
  str1 <> [] -> str2 <> [] -> fits str1 str2 ->
  (forall k, malloc_ok k = true) ->
  exists distance s,
    levenshtein_distance malloc_ok heap str1 str2 script
    = Done (distance, s) /\
    Forall (fun e =>
              0 <= pos e < Z.of_nat (length str1) /\
              arg1 e = char_at str1 (Z.to_nat (pos e)) /\
              In (arg2 e) str2 /\
              type e <> NONE)
           (script_edits s).
Proof.
  intros H1 H2 Hfits Hok.
  destruct (levenshtein_distance_cases malloc_ok heap str1 str2 script
              Hfits Hok)
    as [[-> _]|[(_ & -> & _)|(_ & _ & M & cells & stop & HM & Htrace & _ & _
                              & ->)]];
    [congruence..|].
  do 2 eexists. split; [reflexivity|].
  cbn [script_edits]. rewrite omap_id_unfilled, omap_id_filled.
  pose proof (filled_trace_cells str1 str2 M _ (length str1) (length str2)
                cells stop HM (le_n _) (le_n _) Htrace) as Hcells.
  apply List.Forall_forall. intros e He.
  rewrite <- in_rev in He. apply filter_In in He as [He Hedit].
  rewrite List.Forall_forall in Hcells.
  destruct (Hcells e He) as (i & j & Hi & Hj & ->).
  rewrite (filled_cell _ _ _ HM i j) by lia.
  rewrite (filled_cell _ _ _ HM i j) in Hedit by lia.
  cbn [calculate_cell pos arg1 arg2].
  rewrite Nat2Z.id. repeat split; try lia.
  - apply char_at_In. lia.
  - unfold is_edit in Hedit. intros Hnone. rewrite Hnone in Hedit.
    discriminate.
Qed.

(** The script of ["CHALK"] and ["CHEESE"]. *)
Lemma script_edits_fields_witness :
  exists distance s,
    levenshtein_distance always junk_heap (str "CHALK") (str "CHEESE") NULL
    = Done (distance, s) /\
    Forall (fun e =>
              0 <= pos e < Z.of_nat (length (str "CHALK")) /\
              arg1 e = char_at (str "CHALK") (Z.to_nat (pos e)) /\
              In (arg2 e) (str "CHEESE") /\
              type e <> NONE)
           (script_edits s).
Proof.
  apply (script_edits_fields always junk_heap (str "CHALK") (str "CHEESE")
           NULL).
  - discriminate.
  - discriminate.
  - reflexivity.
  - reflexivity.
Defined.

(** ** Allocation of the matrix *)

Lemma forallb_false {A} (f : A -> bool) l :
  forallb f l = false -> exists x, In x l /\ f x = false.
Proof.
  induction l as [|x l IH]; cbn; [discriminate|].
  destruct (f x) eqn:Hx; cbn.
  - intros (y & Hy & Hfy)%IH. exists y. auto.
  - intros _. exists x. auto.
Qed.

(** X11.  [levenshtein_matrix_create] fails exactly when one of its
    [len1 + 2] requests is refused; when it succeeds, column 0 and row 0
    are numbered from 0, without predecessor and with NUL characters, and
    every other cell is as the allocator left it. *)
Theorem levenshtein_matrix_create_outcome malloc_ok heap len1 len2 :
  (levenshtein_matrix_create malloc_ok heap len1 len2 = None <->
   exists k, (k <= S len1)%nat /\ malloc_ok k = false) /\
  (forall mat,
     levenshtein_matrix_create malloc_ok heap len1 len2 = Some mat ->
     (forall i, (i <= len1)%nat ->
        score (mat i 0%nat) = Z.of_nat i /\ prev (mat i 0%nat) = None /\
        arg1 (mat i 0%nat) = zero /\ arg2 (mat i 0%nat) = zero) /\
     (forall j, (j <= len2)%nat ->
        score (mat 0%nat j) = Z.of_nat j /\ prev (mat 0%nat j) = None /\
        arg1 (mat 0%nat j) = zero /\ arg2 (mat 0%nat j) = zero) /\
     (forall i j, (1 <= i)%nat -> (1 <= j)%nat -> mat i j = heap i j)).
Proof.
  split; [split|].
  - intros Hnone. unfold levenshtein_matrix_create in Hnone.
    destruct (malloc_ok 0%nat) eqn:H0; cbn [negb] in Hnone;
      [|exists 0%nat; split; [lia|assumption]].
    destruct (forallb _ _) eqn:Hall; [discriminate|].
    apply forallb_false in Hall as (i & Hi%in_seq & Hfalse).
    exists (S i). split; [lia|assumption].
  - intros (k & Hk & Hfail). now apply create_None with k.
  - intros mat Hmat. split; [|split].
    + intros i Hi. rewrite (create_cells _ _ _ _ _ i 0%nat Hmat).
      destruct (Nat.eqb_spec i 0) as [->|]; cbn [andb].
      * now destruct (0 <=? len2)%nat.
      * now rewrite (proj2 (Nat.leb_le i len1)) by lia.
    + intros j Hj. rewrite (create_cells _ _ _ _ _ 0%nat j Hmat).
      now rewrite (proj2 (Nat.leb_le j len2)) by lia.
    + intros i j Hi Hj. rewrite (create_cells _ _ _ _ _ i j Hmat).
      destruct (Nat.eqb_spec i 0); [lia|].
      destruct (Nat.eqb_spec j 0); [lia|]. reflexivity.
Qed.

(** ** C strings in arrays *)

Lemma strlen_le buf : (strlen buf <= length buf)%nat.
Proof.
  induction buf as [|c buf IH]; cbn; [lia|].
  destruct (Ascii.eqb c zero); lia.
Qed.

Lemma strlen_app s rest :
  Forall (fun c => c <> zero) s ->
  strlen (s ++ rest) = (length s + strlen rest)%nat.
Proof.
  induction 1 as [|c s Hc _ IH]; [reflexivity|]. cbn.
  destruct (Ascii.eqb_spec c zero); [contradiction|]. now rewrite IH.
Qed.

Lemma strlen_terminated rest : terminated rest -> strlen rest = 0%nat.
Proof. now intros [->|[rest' ->]]. Qed.

Lemma strlen_holds s rest :
  Forall (fun c => c <> zero) s -> terminated rest ->
  strlen (s ++ rest) = length s.
Proof.
  intros Hs Hrest. rewrite strlen_app, strlen_terminated by assumption. lia.
Qed.

Lemma c_string_holds s rest :
  Forall (fun c => c <> zero) s -> terminated rest ->
  c_string (s ++ rest) = s.
Proof.
  intros Hs Hrest. unfold c_string. rewrite strlen_holds by assumption.
  now rewrite firstn_app, Nat.sub_diag, firstn_all, firstn_O, app_nil_r.
Qed.

Lemma c_string_nonzero buf : Forall (fun c => c <> zero) (c_string buf).
Proof.
  unfold c_string. induction buf as [|c buf IH]; cbn; [constructor|].
  destruct (Ascii.eqb_spec c zero); cbn; constructor; assumption.
Qed.

Lemma skipn_strlen_terminated buf : terminated (skipn (strlen buf) buf).
Proof.
  induction buf as [|c buf IH]; cbn; [now left|].
  destruct (Ascii.eqb_spec c zero) as [->|]; cbn; [right; eauto|assumption].
Qed.

(** An array is the C string it holds and what follows it. *)
Lemma c_string_split buf :
  exists rest, buf = c_string buf ++ rest /\ terminated rest.
Proof.
  exists (skipn (strlen buf) buf). split.
  - unfold c_string. now rewrite firstn_skipn.
  - apply skipn_strlen_terminated.
Qed.

Lemma c_string_idem buf : c_string (c_string buf) = c_string buf.
Proof.
  rewrite <- (app_nil_r (c_string buf)) at 1.
  apply c_string_holds; [apply c_string_nonzero|now left].
Qed.

Lemma char_at_app_r (a l : list ascii) k :
  char_at (a ++ l) (length a + k) = char_at l k.
Proof.
  unfold char_at. rewrite app_nth2 by lia. f_equal. lia.
Qed.

Lemma char_at_middle (a b : list ascii) c : char_at (a ++ c :: b) (length a) = c.
Proof.
  rewrite <- (Nat.add_0_r (length a)) at 1. now rewrite char_at_app_r.
Qed.

Lemma insert_middle (a b : list ascii) c c' :
  <[length a := c']> (a ++ c :: b) = a ++ c' :: b.
Proof.
  rewrite <- (Nat.add_0_r (length a)) at 1. now rewrite insert_app_r.
Qed.

(** ** [strrev] *)

Lemma xorb_cancel_l x y : xorb y (xorb x y) = x.
Proof. now destruct x, y. Qed.

Lemma xorb_cancel_r x y : xorb (xorb x y) x = y.
Proof. now destruct x, y. Qed.

Lemma xor_char_cancel_l x y : xor_char y (xor_char x y) = x.
Proof.
  destruct x, y. cbn [xor_char]. now rewrite !xorb_cancel_l.
Qed.

Lemma xor_char_cancel_r x y : xor_char (xor_char x y) x = y.
Proof.
  destruct x, y. cbn [xor_char]. now rewrite !xorb_cancel_r.
Qed.

Lemma char_at_far (a m b : list ascii) c d :
  char_at (a ++ c :: m ++ d :: b) (length a + S (length m)) = d.
Proof.
  rewrite char_at_app_r. unfold char_at. cbn [nth]. now rewrite nth_middle.
Qed.

Lemma insert_far (a m b : list ascii) c d d' :
  <[(length a + S (length m))%nat := d']> (a ++ c :: m ++ d :: b)
  = a ++ c :: m ++ d' :: b.
Proof.
  rewrite insert_app_r. cbn [insert list_insert]. do 2 f_equal.
  apply insert_middle.
Qed.

(** The three assignments exchange two bytes that lie apart. *)
Lemma xor_swap_spec (a m b : list ascii) x y :
  xor_swap (a ++ x :: m ++ y :: b) (length a) (length a + S (length m))
  = a ++ y :: m ++ x :: b.
Proof.
  unfold xor_swap.
  rewrite char_at_middle, char_at_far, insert_middle.
  rewrite char_at_middle, char_at_far, insert_far, xor_char_cancel_l.
  rewrite char_at_middle, char_at_far, insert_middle, xor_char_cancel_r.
  reflexivity.
Qed.

(** The loop reverses what lies between the two pointers. *)
Lemma strrev_loop_spec fuel (a m b : list ascii) :
  (length m <= 2 * fuel + 1)%nat ->
  strrev_loop fuel (a ++ m ++ b) (length a) (length a + length m - 1)
  = Done (a ++ rev m ++ b).
Proof.
  induction fuel as [|fuel IH] in a, m, b |- *; intros Hlen.
  - cbn [strrev_loop].
    destruct (Nat.ltb_spec (length a) (length a + length m - 1)); [lia|].
    destruct m as [|x [|? ?]]; cbn in *; [reflexivity|reflexivity|lia].
  - cbn [strrev_loop].
    destruct (Nat.ltb_spec (length a) (length a + length m - 1)) as [Hlt|Hge].
    + destruct m as [|x m]; [cbn in Hlt; lia|].
      destruct (exists_last (l := m)) as (m' & y & ->);
        [intros ->; cbn in Hlt; lia|].
      cbn [length] in *. rewrite length_app in *. cbn [length] in *.
      replace (length a + S (length m' + 1) - 1)%nat
        with (length a + S (length m'))%nat by lia.
      cbn [app]. rewrite <- app_assoc. cbn [app].
      rewrite xor_swap_spec.
      replace (a ++ y :: m' ++ x :: b) with ((a ++ [y]) ++ m' ++ x :: b)
        by (now rewrite <- app_assoc).
      replace (S (length a)) with (length (a ++ [y]))
        by (rewrite length_app; cbn; lia).
      replace (length a + S (length m') - 1)%nat
        with (length (a ++ [y]) + length m' - 1)%nat
        by (rewrite length_app; cbn; lia).
      rewrite IH by lia.
      cbn [rev]. rewrite rev_app_distr. cbn [rev app].
      now rewrite <- !app_assoc.
    + destruct m as [|x [|? ?]]; cbn in *; [reflexivity|reflexivity|lia].
Qed.

(** [strrev] reverses the C string in the array and leaves the rest of the
    array as it is. *)
Lemma strrev_spec buf :
  strrev buf = Done (rev (c_string buf) ++ skipn (strlen buf) buf).
Proof.
  unfold strrev, c_string.
  destruct (Nat.eqb_spec (strlen buf) 0) as [H0|Hne].
  - now rewrite H0.
  - pose proof (strlen_le buf).
    rewrite <- (firstn_skipn (strlen buf) buf) at 2.
    pose proof (strrev_loop_spec (strlen buf) [] (firstn (strlen buf) buf)
                  (skipn (strlen buf) buf)) as Hloop.
    cbn [app length Nat.add] in Hloop.
    rewrite length_firstn, Nat.min_l in Hloop by assumption.
    apply Hloop. lia.
Qed.

Lemma skipn_holds (s rest : list ascii) : skipn (length s) (s ++ rest) = rest.
Proof. now rewrite skipn_app, skipn_all, Nat.sub_diag. Qed.

Lemma rev_nonzero (s : list ascii) :
  Forall (fun c => c <> zero) s -> Forall (fun c => c <> zero) (rev s).
Proof.
  intros Hs. apply List.Forall_forall. intros c Hc%in_rev.
  rewrite List.Forall_forall in Hs. now apply Hs.
Qed.

(** The array [strrev] leaves holds the reversed string, of the same
    length. *)
Lemma strrev_c_string buf :
  c_string (rev (c_string buf) ++ skipn (strlen buf) buf)
  = rev (c_string buf) /\
  strlen (rev (c_string buf) ++ skipn (strlen buf) buf) = strlen buf.
Proof.
  pose proof (c_string_nonzero buf) as Hnz.
  pose proof (skipn_strlen_terminated buf) as Hterm.
  pose proof (strlen_le buf) as Hle.
  split.
  - apply c_string_holds; [now apply rev_nonzero|assumption].
  - rewrite strlen_holds by (try apply rev_nonzero; assumption).
    unfold c_string. rewrite length_rev, length_firstn. lia.
Qed.

(** X12.  [strrev] always returns; it reverses the C string the array
    holds, keeps its length, and leaves the terminating NUL and every byte
    after it as they were. *)
Theorem strrev_reverses buf :
  exists buf',
    strrev buf = Done buf' /\
    c_string buf' = rev (c_string buf) /\
    strlen buf' = strlen buf /\
    skipn (strlen buf) buf' = skipn (strlen buf) buf /\
    length buf' = length buf.
Proof.
  eexists. split; [apply strrev_spec|].
  pose proof (c_string_nonzero buf) as Hnz.
  pose proof (skipn_strlen_terminated buf) as Hterm.
  pose proof (strlen_le buf) as Hle.
  assert (Hlen : length (rev (c_string buf)) = strlen buf)
    by (unfold c_string; rewrite length_rev, length_firstn; lia).
  split; [|split; [|split]].
  - apply c_string_holds; [now apply rev_nonzero|assumption].
  - rewrite strlen_holds by (try apply rev_nonzero; assumption).
    exact Hlen.
  - rewrite <- Hlen at 1. now rewrite skipn_app, skipn_all, Nat.sub_diag.
  - rewrite length_app, Hlen, length_skipn. lia.
Qed.

(** X13.  Reversing twice gives back the array, byte for byte. *)
Theorem strrev_involutive buf :
  exists buf', strrev buf = Done buf' /\ strrev buf' = Done buf.
Proof.
  eexists. split; [apply strrev_spec|].
  destruct (strrev_c_string buf) as [Hstr Hlen].
  rewrite strrev_spec, Hstr, Hlen, rev_involutive.
  assert (Hrev : length (rev (c_string buf)) = strlen buf).
  { unfold c_string. rewrite length_rev, length_firstn.
    pose proof (strlen_le buf). lia. }
  rewrite <- Hrev at 1. rewrite skipn_holds.
  unfold c_string. now rewrite firstn_skipn.
Qed.

(** ** [count_periods] *)

Lemma count_periods_firstn buf n :
  (n <= length buf)%nat ->
  fold_left (fun p i => if Ascii.eqb (char_at buf i) "."%char then p + 1 else p)
            (seq 0 n) 0
  = Z.of_nat (count_occ ascii_dec (firstn n buf) "."%char).
Proof.
  induction n as [|n IH]; intros Hn; [reflexivity|].
  rewrite fold_left_seq_S, IH by lia. cbn [Nat.add].
  rewrite (firstn_S_nth buf n zero) by lia.
  rewrite count_occ_app. cbn [count_occ]. unfold char_at.
  destruct (Ascii.eqb_spec (nth n buf zero) "."%char) as [->|Hne].
  - destruct (ascii_dec _ _); [lia|contradiction].
  - destruct (ascii_dec _ _); [contradiction|lia].
Qed.

(** X14.  [count_periods] returns the number of full stops in the C string
    the array holds, which is at most its length; reversing the string
    with [strrev] does not change it. *)
Theorem count_periods_counts buf :
  count_periods buf = Z.of_nat (count_occ ascii_dec (c_string buf) "."%char) /\
  0 <= count_periods buf <= Z.of_nat (strlen buf) /\
  (forall buf', strrev buf = Done buf' ->
     count_periods buf' = count_periods buf).
Proof.
  assert (Hcount : forall b,
            count_periods b
            = Z.of_nat (count_occ ascii_dec (c_string b) "."%char))
    by (intros b; apply count_periods_firstn, strlen_le).
  split; [apply Hcount|]. split.
  - rewrite Hcount.
    pose proof (count_occ_bound ascii_dec "."%char (c_string buf)) as Hb.
    unfold c_string in Hb at 2. rewrite length_firstn in Hb.
    pose proof (strlen_le buf). lia.
  - intros buf' Hrun. rewrite strrev_spec in Hrun. injection Hrun as <-.
    destruct (strrev_c_string buf) as [Hstr _].
    rewrite !Hcount, Hstr. f_equal.
    apply Permutation.Permutation_count_occ.
    symmetry. apply Permutation.Permutation_rev.
Qed.

(** ** [strip] *)

Lemma tolower_nonzero c : c <> zero -> tolower c <> zero.
Proof.
  destruct c as [[] [] [] [] [] [] [] []]; intros Hc;
    try (vm_compute; discriminate); now contradiction Hc.
Qed.

Lemma tolower_idem c : tolower (tolower c) = tolower c.
Proof. destruct c as [[] [] [] [] [] [] [] []]; reflexivity. Qed.

Lemma rev_nil_inv {A} (l : list A) : rev l = [] -> l = [].
Proof.
  intros H. apply (f_equal (@rev A)) in H. now rewrite rev_involutive in H.
Qed.

Lemma rev_cons_inv {A} (l r : list A) c : rev l = c :: r -> l = rev r ++ [c].
Proof.
  intros H. apply (f_equal (@rev A)) in H. now rewrite rev_involutive in H.
Qed.

(** One test of [strip], on an array that holds [s]. *)
Lemma chop_if_holds test s rest :
  Forall (fun c => c <> zero) s -> terminated rest ->
  match chop_string test s with
  | None => chop_if test (s ++ rest) = Fault
  | Some s' =>
      exists rest',
        chop_if test (s ++ rest) = Done (s' ++ rest') /\
        terminated rest' /\ Forall (fun c => c <> zero) s'
  end.
Proof.
  intros Hs Hrest. unfold chop_string, chop_if.
  rewrite strlen_holds by assumption.
  destruct (rev s) as [|c r] eqn:Hrev.
  - apply rev_nil_inv in Hrev as ->. reflexivity.
  - apply rev_cons_inv in Hrev as ->.
    rewrite length_app, Nat.add_1_r, <- app_assoc. cbn [app].
    rewrite char_at_middle, insert_middle.
    destruct (test c).
    + exists (zero :: rest). split; [reflexivity|].
      split; [right; eauto|].
      now apply Forall_app in Hs as [Hs _].
    + exists rest. rewrite <- app_assoc. now repeat split.
Qed.

Lemma lower_holds s rest :
  Forall (fun c => c <> zero) s -> terminated rest ->
  lower (s ++ rest) = map tolower s ++ rest.
Proof.
  intros Hs Hrest. induction Hs as [|c s Hc _ IH]; cbn.
  - now destruct Hrest as [->|[rest' ->]].
  - destruct (Ascii.eqb_spec c zero); [contradiction|]. now rewrite IH.
Qed.

Lemma map_tolower_nonzero s :
  Forall (fun c => c <> zero) s -> Forall (fun c => c <> zero) (map tolower s).
Proof.
  induction 1; cbn; constructor; [now apply tolower_nonzero|assumption].
Qed.

(** [strip] on an array that holds [s]. *)
Lemma strip_holds s rest :
  Forall (fun c => c <> zero) s -> terminated rest ->
  match strip_string s with
  | None => strip (s ++ rest) = Fault
  | Some s' => exists buf', strip (s ++ rest) = Done buf' /\ c_string buf' = s'
  end.
Proof.
  intros Hs Hrest. unfold strip, strip_string.
  pose proof (chop_if_holds is_line_end s rest Hs Hrest) as H1.
  destruct (chop_string is_line_end s) as [s1|]; [|now rewrite H1].
  destruct H1 as (rest1 & -> & Hrest1 & Hs1). cbn [bind].
  pose proof (chop_if_holds is_line_end s1 rest1 Hs1 Hrest1) as H2.
  destruct (chop_string is_line_end s1) as [s2|]; [|now rewrite H2].
  destruct H2 as (rest2 & -> & Hrest2 & Hs2). cbn [bind].
  pose proof (chop_if_holds is_comma s2 rest2 Hs2 Hrest2) as H3.
  destruct (chop_string is_comma s2) as [s3|]; [|now rewrite H3].
  destruct H3 as (rest3 & -> & Hrest3 & Hs3). cbn [bind].
  eexists. split; [reflexivity|].
  rewrite lower_holds by assumption.
  apply c_string_holds; [now apply map_tolower_nonzero|assumption].
Qed.

Lemma strip_c_string buf :
  match strip_string (c_string buf) with
  | None => strip buf = Fault
  | Some s' => exists buf', strip buf = Done buf' /\ c_string buf' = s'
  end.
Proof.
  destruct (c_string_split buf) as (rest & Hbuf & Hrest).
  pose proof (strip_holds (c_string buf) rest (c_string_nonzero buf) Hrest)
    as H.
  now rewrite <- Hbuf in H.
Qed.

Lemma chop_string_Some test s s1 :
  chop_string test s = Some s1 ->
  s = s1 \/ exists c, s = s1 ++ [c] /\ test c = true.
Proof.
  unfold chop_string. destruct (rev s) as [|c r] eqn:Hrev; [discriminate|].
  apply rev_cons_inv in Hrev as ->.
  destruct (test c) eqn:Hc; intros [= <-]; [right; eauto|now left].
Qed.

Lemma chop_string_None test s : chop_string test s = None <-> s = [].
Proof.
  unfold chop_string. destruct (rev s) as [|c r] eqn:Hrev.
  - apply rev_nil_inv in Hrev as ->. tauto.
  - apply rev_cons_inv in Hrev as ->. split; [discriminate|].
    now destruct (rev r).
Qed.

Lemma chop_string_snoc test s c :
  chop_string test (s ++ [c]) = Some (if test c then s else s ++ [c]).
Proof.
  unfold chop_string. rewrite rev_app_distr. cbn [rev app].
  now rewrite rev_involutive.
Qed.

Lemma snoc_cases {A} (l : list A) : l = [] \/ exists l' x, l = l' ++ [x].
Proof.
  destruct (rev l) as [|x r] eqn:Hrev.
  - left. now apply rev_nil_inv.
  - right. exists (rev r), x. now apply rev_cons_inv.
Qed.

(** One test on a string whose last character is known. *)
Ltac chop_step :=
  rewrite chop_string_snoc;
  repeat match goal with
         | H : _ = true |- _ => rewrite H
         | H : _ = false |- _ => rewrite H
         end;
  cbv beta iota.

Lemma strip_string_None s :
  strip_string s = None <->
  (length s <= 2)%nat /\ Forall (fun c => is_line_end c = true) s.
Proof.
  unfold strip_string.
  destruct (snoc_cases s) as [->|(s1 & c1 & ->)].
  { cbn. split; [intros _; split; [lia|constructor]|reflexivity]. }
  destruct (is_line_end c1) eqn:H1; chop_step.
  - destruct (snoc_cases s1) as [->|(s2 & c2 & ->)].
    { cbn. split; [intros _|reflexivity].
      split; [lia|]. now repeat constructor. }
    destruct (is_line_end c2) eqn:H2; chop_step.
    + destruct (chop_string is_comma s2) as [s3|] eqn:H3.
      * split; [intros Hx; discriminate Hx|]. intros [Hlen _].
        assert (s2 = []) as ->
          by (destruct s2; [reflexivity|
              rewrite !length_app in Hlen; cbn in Hlen; lia]).
        discriminate.
      * apply chop_string_None in H3 as ->.
        split; [intros _|reflexivity].
        split; [cbn; lia|]. now repeat constructor.
    + chop_step. split; [intros Hx; discriminate Hx|].
      intros [_ Hall].
      apply Forall_app in Hall as [Hall _].
      apply Forall_app in Hall as [_ Hall].
      inversion Hall; congruence.
  - chop_step. chop_step.
    split; [intros Hx; discriminate Hx|].
    intros [_ Hall]. apply Forall_app in Hall as [_ Hall].
    inversion Hall; congruence.
Qed.

(** X15.  [strip] reads the byte before the array exactly when the string
    is empty or consists of one or two line-end characters only, as a
    blank line does; on every other string it returns. *)
Theorem strip_faults_iff buf :
  (strip buf = Fault <->
   (length (c_string buf) <= 2)%nat /\
   Forall (fun c => is_line_end c = true) (c_string buf)) /\
  strip buf <> OutOfFuel.
Proof.
  pose proof (strip_c_string buf) as H.
  pose proof (strip_string_None (c_string buf)) as Hnone.
  destruct (strip_string (c_string buf)) as [s'|].
  - destruct H as (buf' & -> & _). split; [|discriminate].
    split; [discriminate|]. intros Hs. apply Hnone in Hs. discriminate.
  - rewrite H. split; [|discriminate].
    split; [intros _; now apply Hnone|reflexivity].
Qed.

Lemma strip_string_result s s' :
  strip_string s = Some s' ->
  exists k t,
    s = k ++ t /\ (length t <= 3)%nat /\
    Forall (fun c => is_line_end c || is_comma c = true) t /\
    s' = map tolower k.
Proof.
  unfold strip_string.
  destruct (chop_string is_line_end s) as [s1|] eqn:H1; [|discriminate].
  destruct (chop_string is_line_end s1) as [s2|] eqn:H2; [|discriminate].
  destruct (chop_string is_comma s2) as [s3|] eqn:H3; [|discriminate].
  intros [= <-]. exists s3.
  apply chop_string_Some in H1, H2, H3.
  assert (Hle : forall c, is_line_end c = true ->
                          is_line_end c || is_comma c = true)
    by (intros c ->; reflexivity).
  assert (Hco : forall c, is_comma c = true ->
                          is_line_end c || is_comma c = true)
    by (intros c ->; apply orb_true_r).
  destruct H3 as [->|(c3 & -> & Hc3)];
    destruct H2 as [->|(c2 & -> & Hc2)];
    destruct H1 as [->|(c1 & -> & Hc1)].
  - exists []. rewrite app_nil_r. repeat split; [cbn; lia|constructor].
  - exists [c1]. repeat split; [cbn; lia|]. repeat constructor; auto.
  - exists [c2]. repeat split; [cbn; lia|]. repeat constructor; auto.
  - exists [c2; c1]. rewrite <- app_assoc. repeat split; [cbn; lia|].
    repeat constructor; auto.
  - exists [c3]. repeat split; [cbn; lia|]. repeat constructor; auto.
  - exists [c3; c1]. rewrite <- app_assoc. repeat split; [cbn; lia|].
    repeat constructor; auto.
  - exists [c3; c2]. rewrite <- app_assoc. repeat split; [cbn; lia|].
    repeat constructor; auto.
  - exists [c3; c2; c1]. rewrite <- !app_assoc. repeat split; [cbn; lia|].
    repeat constructor; auto.
Qed.

(** X16.  When [strip] returns, the string left in the array is the string
    it was given without its last characters, at most three of them, each a
    line end or a comma, and with every letter in lower case. *)
Theorem strip_result buf buf' :
  strip buf = Done buf' ->
  exists s t,
    c_string buf = s ++ t /\ (length t <= 3)%nat /\
    Forall (fun c => is_line_end c || is_comma c = true) t /\
    c_string buf' = map tolower s /\
    Forall (fun c => tolower c = c) (c_string buf').
Proof.
  intros Hrun. pose proof (strip_c_string buf) as H.
  destruct (strip_string (c_string buf)) as [s'|] eqn:Hs;
    [|rewrite H in Hrun; discriminate].
  destruct H as (buf0 & Hrun0 & Hstr). rewrite Hrun in Hrun0.
  injection Hrun0 as <-.
  destruct (strip_string_result _ _ Hs) as (k & t & Hk & Hlen & Ht & ->).
  exists k, t. repeat split; try assumption.
  rewrite Hstr. apply List.Forall_forall.
  intros c (c0 & <- & _)%in_map_iff. apply tolower_idem.
Qed.

(** A line of a keyword file. *)
Lemma strip_result_witness :
  exists s t,
    c_string (str "PayPal," ++ ["013"%char; "010"%char]) = s ++ t /\
    (length t <= 3)%nat /\
    Forall (fun c => is_line_end c || is_comma c = true) t /\
    c_string (str "paypal" ++ [zero; zero; zero]) = map tolower s /\
    Forall (fun c => tolower c = c)
           (c_string (str "paypal" ++ [zero; zero; zero])).
Proof.
  apply (strip_result (str "PayPal," ++ ["013"%char; "010"%char])
           (str "paypal" ++ [zero; zero; zero])).
  reflexivity.
Defined.

(** X17.  On a line that ends with at most two line-end characters,
    preceded either by a comma or by a character that is neither a comma
    nor a line end, [strip] returns and leaves the line without that comma
    and those line ends, in lower case. *)
Theorem strip_trims_line buf s comma n :
  c_string buf = s ++ comma ++ n ->
  (length n <= 2)%nat -> Forall (fun c => is_line_end c = true) n ->
  (comma = [","%char] \/
   (comma = [] /\
    exists s' c, s = s' ++ [c] /\ is_line_end c = false /\ is_comma c = false)) ->
  exists buf', strip buf = Done buf' /\ c_string buf' = map tolower s.
Proof.
  intros Hbuf Hlen Hn Hcomma.
  pose proof (strip_c_string buf) as H. rewrite Hbuf in H.
  replace (strip_string (s ++ comma ++ n)) with (Some (map tolower s)) in H;
    [exact H|].
  symmetry. unfold strip_string.
  assert (Hcm : is_line_end ","%char = false) by reflexivity.
  assert (Hcc : is_comma ","%char = true) by reflexivity.
  destruct Hcomma as [->|(-> & s' & c & -> & Hc1 & Hc2)].
  - destruct n as [|n1 [|n2 [|? ?]]]; [| | |cbn in Hlen; lia].
    + cbn [app]. now do 3 chop_step.
    + inversion Hn as [|? ? Hn1 _]; subst.
      replace (s ++ [","%char] ++ [n1]) with ((s ++ [","%char]) ++ [n1])
        by (now rewrite <- app_assoc).
      now do 3 chop_step.
    + inversion Hn as [|? ? Hn1 Hn']; subst.
      inversion Hn' as [|? ? Hn2 _]; subst.
      replace (s ++ [","%char] ++ [n1; n2])
        with (((s ++ [","%char]) ++ [n1]) ++ [n2])
        by (now rewrite <- !app_assoc).
      now do 3 chop_step.
  - cbn [app].
    destruct n as [|n1 [|n2 [|? ?]]]; [| | |cbn in Hlen; lia].
    + rewrite app_nil_r. now do 3 chop_step.
    + inversion Hn as [|? ? Hn1 _]; subst. now do 3 chop_step.
    + inversion Hn as [|? ? Hn1 Hn']; subst.
      inversion Hn' as [|? ? Hn2 _]; subst.
      replace ((s' ++ [c]) ++ [n1; n2]) with (((s' ++ [c]) ++ [n1]) ++ [n2])
        by (now rewrite <- !app_assoc).
      now do 3 chop_step.
Qed.

(** A keyword read from a file with CR LF line ends. *)
Lemma strip_trims_line_witness :
  exists buf',
    strip (str "PayPal" ++ ["013"%char; "010"%char]) = Done buf' /\
    c_string buf' = map tolower (str "PayPal").
Proof.
  apply (strip_trims_line (str "PayPal" ++ ["013"%char; "010"%char])
           (str "PayPal") [] ["013"%char; "010"%char]).
  - reflexivity.
  - cbn. lia.
  - repeat constructor.
  - right. split; [reflexivity|]. exists (str "PayPa"), "l"%char.
    repeat split.
Defined.

(** ** [strip_subline] *)

Lemma strrev_holds s rest :
  Forall (fun c => c <> zero) s -> terminated rest ->
  strrev (s ++ rest) = Done (rev s ++ rest).
Proof.
  intros Hs Hrest.
  rewrite strrev_spec, c_string_holds, strlen_holds by assumption.
  now rewrite skipn_holds.
Qed.

(** The loop of [strip_subline] on the bytes [p] at the start of an
    array. *)
Lemma commas_to_nul_prefix (p q : list ascii) :
  fold_left (fun b i => if is_comma (char_at b i) then <[i := zero]> b else b)
            (rev (seq 0 (length p))) (p ++ q)
  = map comma_to_nul p ++ q.
Proof.
  induction p as [|c p IH] using rev_ind in q |- *; [reflexivity|].
  rewrite length_app, Nat.add_1_r, seq_S, rev_app_distr, <- app_assoc.
  cbn [rev app fold_left Nat.add].
  rewrite char_at_middle.
  assert (Hset : (if is_comma c then <[length p := zero]> (p ++ c :: q)
                  else p ++ c :: q) = p ++ comma_to_nul c :: q).
  { unfold comma_to_nul. destruct (is_comma c); [|reflexivity].
    apply insert_middle. }
  rewrite Hset, IH, map_app, <- app_assoc. reflexivity.
Qed.

Lemma commas_to_nul_spec buf :
  commas_to_nul buf
  = map comma_to_nul (c_string buf) ++ skipn (strlen buf) buf.
Proof.
  unfold commas_to_nul.
  assert (Hlen : strlen buf = length (c_string buf)).
  { unfold c_string. rewrite length_firstn. pose proof (strlen_le buf). lia. }
  rewrite <- (firstn_skipn (strlen buf) buf) at 2.
  fold (c_string buf). rewrite Hlen at 1. apply commas_to_nul_prefix.
Qed.

(** A string up to its first comma. *)
Lemma first_comma (l : list ascii) :
  exists u rest,
    l = u ++ rest /\ Forall (fun c => is_comma c = false) u /\
    (rest = [] \/ exists rest', rest = ","%char :: rest').
Proof.
  induction l as [|c l (u & rest & -> & Hu & Hrest)].
  - exists [], []. repeat split; [constructor|now left].
  - destruct (is_comma c) eqn:Hc.
    + exists [], (c :: u ++ rest). repeat split; [constructor|].
      right. exists (u ++ rest). unfold is_comma in Hc.
      now apply Ascii.eqb_eq in Hc as ->.
    + exists (c :: u), rest. repeat split; [now constructor|assumption].
Qed.

Lemma map_comma_to_nul_id u :
  Forall (fun c => is_comma c = false) u -> map comma_to_nul u = u.
Proof.
  induction 1 as [|c u Hc _ IH]; [reflexivity|]. cbn.
  unfold comma_to_nul at 1. now rewrite Hc, IH.
Qed.

(** X18.  When the line fits the 2048-byte buffer and [strip] returns on
    it, [strip_subline] leaves in [str] what follows the last comma of the
    stripped line, or the whole stripped line when it has no comma. *)
Theorem strip_subline_last_field str buf :
  (strlen str < 2048)%nat ->
  strip (c_string str) = Done buf ->
  exists pre field,
    strip_subline str = Done field /\
    c_string buf = pre ++ field /\
    Forall (fun c => is_comma c = false) field /\
    (pre = [] \/ exists pre', pre = pre' ++ [","%char]).
Proof.
  intros Hlen Hstrip. unfold strip_subline.
  destruct (Nat.leb_spec 2048 (strlen str)); [lia|].
  rewrite Hstrip. cbn [bind].
  destruct (c_string_split buf) as (rest & Hbuf & Hrest).
  pose proof (c_string_nonzero buf) as Hnz.
  set (s := c_string buf) in *. rewrite Hbuf.
  rewrite strrev_holds by assumption. cbn [bind].
  rewrite commas_to_nul_spec.
  rewrite c_string_holds, strlen_holds, length_rev, <- (length_rev s),
    skipn_holds by (try apply rev_nonzero; assumption).
  destruct (first_comma (rev s)) as (u & tl & Hrev & Hu & Htl).
  assert (Hunz : Forall (fun c => c <> zero) u).
  { apply rev_nonzero in Hnz. rewrite Hrev in Hnz.
    now apply Forall_app in Hnz as [Hnz _]. }
  assert (Hs : s = rev tl ++ rev u).
  { rewrite <- (rev_involutive s), Hrev. apply rev_app_distr. }
  assert (Hfield : Forall (fun c => is_comma c = false) (rev u)).
  { apply List.Forall_forall. intros c Hc%in_rev.
    rewrite List.Forall_forall in Hu. now apply Hu. }
  rewrite Hrev, map_app, map_comma_to_nul_id, <- app_assoc by assumption.
  exists (rev tl), (rev u).
  destruct Htl as [->|(tl' & ->)].
  - cbn [map app]. rewrite strrev_holds by assumption. cbn [bind].
    rewrite c_string_holds by (try apply rev_nonzero; assumption).
    repeat split; try assumption. now left.
  - cbn [map app]. unfold comma_to_nul at 1.
    change (is_comma ","%char) with true. cbv iota.
    rewrite strrev_holds by (try assumption; right; eauto). cbn [bind].
    rewrite c_string_holds
      by (try apply rev_nonzero; try assumption; right; eauto).
    repeat split; try assumption. right. exists (rev tl'). reflexivity.
Qed.

(** A line of the subdomain file. *)
Lemma strip_subline_last_field_witness :
  exists pre field,
    strip_subline (str "4,4,4,ABC.com" ++ ["010"%char]) = Done field /\
    c_string (str "4,4,4,abc.com" ++ [zero]) = pre ++ field /\
    Forall (fun c => is_comma c = false) field /\
    (pre = [] \/ exists pre', pre = pre' ++ [","%char]).
Proof.
  apply (strip_subline_last_field (str "4,4,4,ABC.com" ++ ["010"%char])
           (str "4,4,4,abc.com" ++ [zero])).
  - cbn. lia.
  - reflexivity.
Defined.

(** X19.  [strip_subline] faults exactly when the line does not fit the
    2048-byte buffer or [strip] reads before the line, which is when the
    line is empty or holds one or two line-end characters only; its two
    reversals always run to their end. *)
Theorem strip_subline_faults_iff str :
  (strip_subline str = Fault <->
   (2048 <= strlen str)%nat \/
   ((length (c_string str) <= 2)%nat /\
    Forall (fun c => is_line_end c = true) (c_string str))) /\
  strip_subline str <> OutOfFuel.
Proof.
  pose proof (strip_c_string (c_string str)) as H.
  rewrite c_string_idem in H.
  pose proof (strip_string_None (c_string str)) as Hnone.
  unfold strip_subline.
  destruct (Nat.leb_spec 2048 (strlen str)) as [Hlong|Hshort].
  { split; [|discriminate]. split; [now left|reflexivity]. }
  destruct (strip_string (c_string str)) as [s'|].
  - destruct H as (buf & -> & _). cbn [bind].
    rewrite strrev_spec. cbn [bind]. rewrite strrev_spec. cbn [bind].
    split; [|discriminate].
    split; [discriminate|].
    intros [?|Hs]; [lia|]. apply Hnone in Hs. discriminate.
  - rewrite H. cbn [bind]. split; [|discriminate].
    split; [intros _; right; now apply Hnone|reflexivity].
Qed.

(** ** The labels [main] compares *)

Lemma count_periods_c_string buf :
  count_periods buf = Z.of_nat (count_occ ascii_dec (c_string buf) "."%char).
Proof. apply count_periods_firstn, strlen_le. Qed.

(** [strtok] reads a run of characters other than the full stop to its
    end. *)
Lemma strtok_tokens_from_run cur l rest :
  Forall (fun c => c <> zero /\ c <> "."%char) l ->
  strtok_tokens_from cur (l ++ rest) = strtok_tokens_from (rev l ++ cur) rest.
Proof.
  intros Hl. induction Hl as [|c l [Hz Hp] _ IH] in cur |- *; [reflexivity|].
  cbn [app strtok_tokens_from rev].
  destruct (Ascii.eqb_spec c zero); [contradiction|].
  destruct (Ascii.eqb_spec c "."%char); [contradiction|].
  now rewrite IH, <- app_assoc.
Qed.

Lemma strtok_tokens_label (cur label : list ascii) :
  is_label label ->
  exists c cur', rev label ++ cur = c :: cur' /\
                 rev (rev label ++ cur) = rev cur ++ label.
Proof.
  intros [Hne _].
  destruct (rev label) as [|c r] eqn:Hrev.
  - apply rev_nil_inv in Hrev. contradiction.
  - exists c, (r ++ cur). split; [reflexivity|].
    rewrite <- Hrev, rev_app_distr. now rewrite rev_involutive.
Qed.

(** [strtok] gives back the labels a name was written from. *)
Lemma strtok_tokens_join labels :
  Forall is_label labels -> strtok_tokens (join_labels labels) = labels.
Proof.
  unfold strtok_tokens.
  induction 1 as [|label labels Hlabel Hlabels IH]; [reflexivity|].
  destruct (strtok_tokens_label [] label Hlabel) as (c & cur' & Hcur & Hrev).
  rewrite app_nil_r in Hcur, Hrev. cbn [rev app] in Hrev.
  destruct labels as [|label' labels].
  - cbn [join_labels]. rewrite <- (app_nil_r label) at 1.
    rewrite strtok_tokens_from_run by apply Hlabel.
    rewrite app_nil_r. cbn [strtok_tokens_from].
    rewrite Hcur, <- Hcur, Hrev. reflexivity.
  - change (join_labels (label :: label' :: labels))
      with (label ++ "."%char :: join_labels (label' :: labels)).
    rewrite strtok_tokens_from_run by apply Hlabel.
    rewrite app_nil_r. cbn [strtok_tokens_from].
    change (Ascii.eqb "."%char zero) with false.
    change (Ascii.eqb "."%char "."%char) with true. cbv iota.
    rewrite Hcur, <- Hcur, Hrev, IH. reflexivity.
Qed.

Lemma join_labels_nonzero labels :
  Forall is_label labels -> Forall (fun c => c <> zero) (join_labels labels).
Proof.
  induction 1 as [|label labels [_ Hlabel] Hlabels IH]; [constructor|].
  assert (Hnz : Forall (fun c => c <> zero) label)
    by (eapply Forall_impl; [exact Hlabel|]; cbn; tauto).
  destruct labels as [|label' labels]; [exact Hnz|].
  change (join_labels (label :: label' :: labels))
    with (label ++ "."%char :: join_labels (label' :: labels)).
  apply Forall_app. split; [assumption|].
  constructor; [discriminate|assumption].
Qed.

Lemma count_occ_label label :
  is_label label -> count_occ ascii_dec label "."%char = 0%nat.
Proof.
  intros [_ Hlabel]. apply count_occ_not_In. intros Hin.
  rewrite List.Forall_forall in Hlabel. now destruct (Hlabel _ Hin).
Qed.

Lemma count_periods_join labels :
  Forall is_label labels ->
  count_periods (join_labels labels) = Z.of_nat (length labels - 1).
Proof.
  intros Hlabels. rewrite count_periods_c_string.
  rewrite <- (app_nil_r (join_labels labels)) at 1.
  rewrite c_string_holds by (try apply join_labels_nonzero; try assumption;
                             now left).
  f_equal.
  induction Hlabels as [|label labels Hlabel Hlabels IH]; [reflexivity|].
  destruct labels as [|label' labels].
  - cbn [join_labels length]. now rewrite count_occ_label.
  - change (join_labels (label :: label' :: labels))
      with (label ++ "."%char :: join_labels (label' :: labels)).
    rewrite count_occ_app, count_occ_label by assumption.
    rewrite count_occ_cons_eq by reflexivity.
    rewrite IH. cbn [length]. lia.
Qed.

(** The loop stops after [num_p - token_cnt] more tokens. *)
Lemma more_tokens_firstn num_p token_cnt tokens :
  0 <= token_cnt <= num_p -> num_p < 2 ^ 32 ->
  more_tokens num_p token_cnt tokens
  = firstn (Z.to_nat (num_p - token_cnt)) tokens.
Proof.
  rewrite two_32.
  induction tokens as [|token tokens IH] in token_cnt |- *; intros Hcnt Hp.
  - cbn. destruct (_ =? _); now rewrite firstn_nil.
  - cbn [more_tokens].
    destruct (Z.eqb_spec token_cnt num_p) as [->|Hne].
    + now rewrite Z.sub_diag.
    + rewrite to_uint_small by (rewrite two_32; lia).
      rewrite IH by lia.
      replace (Z.to_nat (num_p - token_cnt))
        with (S (Z.to_nat (num_p - (token_cnt + 1)))) by lia.
      reflexivity.
Qed.

(** X20.  For a name written from two or more labels, [main] passes every
    label but the last one to [levenshtein_distance], in order; for a name
    of one label it passes that label. *)
Theorem compared_tokens_all_but_last labels :
  labels <> [] -> Forall is_label labels ->
  Z.of_nat (length labels) < 2 ^ 32 ->
  compared_tokens (join_labels labels)
  = match labels with
    | [label] => [label]
    | _ => removelast labels
    end.
Proof.
  intros Hne Hlabels Hlen. rewrite two_32 in Hlen. unfold compared_tokens.
  rewrite strtok_tokens_join, count_periods_join by assumption.
  destruct labels as [|label [|label' labels]]; [congruence|reflexivity|].
  cbn [length Nat.sub] in *.
  rewrite !to_uint_small by (rewrite two_32; lia).
  match goal with |- context [?a =? ?b] =>
    destruct (Z.eqb_spec a b) as [Heq|Hneq] end.
  - destruct labels; [reflexivity|cbn [length] in Heq; lia].
  - rewrite more_tokens_firstn by (try rewrite two_32; lia).
    match goal with |- context [Z.to_nat ?a] =>
      replace (Z.to_nat a) with (length labels) by lia end.
    rewrite (removelast_firstn_len (label :: label' :: labels)).
    reflexivity.
Qed.

(** [www.paypal.com]. *)
Lemma compared_tokens_all_but_last_witness :
  compared_tokens (join_labels [str "www"; str "paypal"; str "com"])
  = removelast [str "www"; str "paypal"; str "com"].
Proof.
  apply (compared_tokens_all_but_last [str "www"; str "paypal"; str "com"]).
  - discriminate.
  - repeat constructor; discriminate.
  - reflexivity.
Defined.

(** ** A common first character *)

Lemma score_table_cell str1 str2 i j :
  score_table str1 str2 (S i) (S j)
  = min3 (score_table str1 str2 i (S j) + 1)
         (score_table str1 str2 (S i) j + 1)
         (score_table str1 str2 i j
          + substitution_cost_of str1 str2 (S i) (S j)).
Proof. reflexivity. Qed.

Lemma score_table_column0 str1 str2 i :
  score_table str1 str2 i 0 = Z.of_nat i.
Proof. now destruct i. Qed.

Lemma filled_score_table str1 str2 M i j :
  filled str1 str2 M -> fits str1 str2 ->
  (i <= length str1)%nat -> (j <= length str2)%nat ->
  score (M i j) = score_table str1 str2 i j.
Proof.
  intros HM Hfits. induction i as [|i IHi] in j |- *.
  - intros _ Hj. now destruct (filled_row0 _ _ _ HM j Hj) as [-> _].
  - intros Hi. induction j as [|j IHj].
    + intros _. rewrite score_table_column0.
      now destruct (filled_column0 _ _ _ HM (S i) Hi) as [-> _].
    + intros Hj.
      rewrite (filled_score_cell _ _ _ HM Hfits), score_table_cell by lia.
      now rewrite (IHi (S j)), (IHi j), IHj by lia.
Qed.

Lemma substitution_cost_of_cons c str1 str2 i j :
  substitution_cost_of (c :: str1) (c :: str2) (S (S i)) (S (S j))
  = substitution_cost_of str1 str2 (S i) (S j).
Proof.
  unfold substitution_cost_of, char_at.
  replace (S (S i) - 1)%nat with (S i) by lia.
  replace (S (S j) - 1)%nat with (S j) by lia.
  replace (S i - 1)%nat with i by lia.
  replace (S j - 1)%nat with j by lia.
  reflexivity.
Qed.

(** With a common first character the scores move one cell down the
    diagonal. *)
Lemma score_table_cons c str1 str2 i j :
  score_table (c :: str1) (c :: str2) (S i) (S j) = score_table str1 str2 i j.
Proof.
  induction i as [|i IHi] in j |- *.
  - induction j as [|j IHj].
    + rewrite score_table_cell. cbn [score_table].
      unfold substitution_cost_of. cbn [Nat.sub char_at nth].
      rewrite Ascii.eqb_refl. reflexivity.
    + rewrite score_table_cell, IHj. cbn [score_table].
      pose proof (substitution_cost_of_range (c :: str1) (c :: str2) 1
                    (S (S j))).
      match goal with |- context [min3 ?a ?b ?d] =>
        destruct (min3_cases a b d) as [[-> ?]|[[-> ?]|[-> ?]]]; lia end.
  - induction j as [|j IHj].
    + rewrite score_table_cell, (IHi 0%nat), !score_table_column0.
      pose proof (substitution_cost_of_range (c :: str1) (c :: str2)
                    (S (S i)) 1).
      match goal with |- context [min3 ?a ?b ?d] =>
        destruct (min3_cases a b d) as [[-> ?]|[[-> ?]|[-> ?]]]; lia end.
    + rewrite score_table_cell, (IHi (S j)), IHj, (IHi j).
      now rewrite substitution_cost_of_cons, <- score_table_cell.
Qed.

(** The distance returned, as an entry of [score_table]. *)
Lemma levenshtein_distance_score_table malloc_ok heap str1 str2 script :
  fits str1 str2 -> (forall k, malloc_ok k = true) ->
  exists s,
    levenshtein_distance malloc_ok heap str1 str2 script
    = Done (score_table str1 str2 (length str1) (length str2), s).
Proof.
  intros Hfits Hok.
  destruct (levenshtein_distance_cases malloc_ok heap str1 str2 script
              Hfits Hok)
    as [[-> ->]|[(_ & -> & ->)|(_ & _ & M & cells & stop & HM & _ & _ & _ & ->)]].
  - eexists. reflexivity.
  - rewrite score_table_column0. eexists. reflexivity.
  - rewrite (filled_score_table str1 str2 M) by (assumption || lia).
    eexists. reflexivity.
Qed.

(** X21.  With every allocation granted, a character put in front of both
    strings does not change the distance returned. *)
Theorem levenshtein_distance_common_head malloc_ok malloc_ok' heap heap'
    c str1 str2 script script' :
  fits (c :: str1) (c :: str2) ->
  (forall k, malloc_ok k = true) -> (forall k, malloc_ok' k = true) ->
  exists distance s s',
    levenshtein_distance malloc_ok heap (c :: str1) (c :: str2) script
    = Done (distance, s) /\
    levenshtein_distance malloc_ok' heap' str1 str2 script'
    = Done (distance, s').
Proof.
  intros Hfits Hok Hok'.
  assert (Hfits' : fits str1 str2)
    by (unfold fits in *; cbn [length] in Hfits; lia).
  destruct (levenshtein_distance_score_table malloc_ok heap (c :: str1)
              (c :: str2) script Hfits Hok) as [s ->].
  destruct (levenshtein_distance_score_table malloc_ok' heap' str1 str2
              script' Hfits' Hok') as [s' ->].
  cbn [length]. rewrite score_table_cons. eauto.
Qed.

(** ["kitten"] and ["knitting"]. *)
Lemma levenshtein_distance_common_head_witness :
  exists distance s s',
    levenshtein_distance always junk_heap (str "kitten") (str "knitting") NULL
    = Done (distance, s) /\
    levenshtein_distance always junk_heap (str "itten") (str "nitting") NULL
    = Done (distance, s').
Proof.
  apply (levenshtein_distance_common_head always always junk_heap junk_heap
           "k"%char (str "itten") (str "nitting") NULL NULL).
  - reflexivity.
  - reflexivity.
  - reflexivity.
Defined.
